(** * The mterp ARM macro header and the locked dump operator

    A shallow embedding of [runtime/interpreter/mterp/arm/header.S] and of
    [runtime/base/dumpable-inl.h].

    The assembler macros of [header.S] are short straight-line sequences of
    ARM instructions over the pinned interpreter registers.  Each ARM
    instruction used by the header is a function on a machine state
    (fifteen 32-bit core registers, the program counter with the
    instruction set it selects, and a byte-addressed little-endian memory);
    each macro is the composition of its instructions, in the order of the
    source. *)

From Stdlib Require Import ZArith Lia List Bool.
Import ListNotations.
Local Open Scope Z_scope.

(** ** Machine words *)

Module Word.

(** A core register is 32 bits wide: an integer is read modulo [2^32]. *)
Definition modulus : Z := 2 ^ 32.

Definition wrap32 (z : Z) : Z := z mod modulus.

(** The signed reading of a 32-bit pattern, for [asr] and [ldrsh]. *)
Definition signed32 (z : Z) : Z :=
  let u := wrap32 z in if u <? 2 ^ 31 then u else u - modulus.

Definition signed16 (z : Z) : Z :=
  let u := z mod 2 ^ 16 in if u <? 2 ^ 15 then u else u - 2 ^ 16.

End Word.
Import Word.

(** ** Registers *)

(** The operand registers of the macros.  [r15] is not an operand of any
    macro: it is written by [GOTO_OPCODE] only and is a field of the state. *)
Inductive reg : Type :=
| r0 | r1 | r2 | r3 | r4 | r5 | r6 | r7
| r8 | r9 | r10 | r11 | r12 | r13 | r14.

Definition reg_eq_dec (a b : reg) : {a = b} + {a <> b}.
Proof. decide equality. Defined.

Definition reg_eqb (a b : reg) : bool := if reg_eq_dec a b then true else false.

(** single-purpose registers, given names for clarity *)
Definition rPC : reg := r4.
Definition rFP : reg := r5.
Definition rSELF : reg := r6.
Definition rINST : reg := r7.
Definition rIBASE : reg := r8.
Definition rPROFILE : reg := r10.
Definition rREFS : reg := r11.

(** ** Memory: byte addressed, little endian, addresses modulo [2^32] *)

Definition memory : Type := Z -> Z.

Definition load8 (m : memory) (a : Z) : Z := m (wrap32 a) mod 256.

Definition store8 (m : memory) (a : Z) (b : Z) : memory :=
  fun x => if x =? wrap32 a then b else m x.

Definition load16 (m : memory) (a : Z) : Z :=
  Z.lor (load8 m a) (Z.shiftl (load8 m (a + 1)) 8).

Definition load32 (m : memory) (a : Z) : Z :=
  Z.lor (load16 m a) (Z.shiftl (load16 m (a + 2)) 16).

Definition store32 (m : memory) (a : Z) (v : Z) : memory :=
  store8 (store8 (store8 (store8 m a v)
    (a + 1) (Z.shiftr v 8)) (a + 2) (Z.shiftr v 16)) (a + 3) (Z.shiftr v 24).

(** Two words that share no byte: the second starts at least four bytes
    after the first and ends before it, modulo [2^32]. *)
Definition apart (a c : Z) : bool :=
  (4 <=? wrap32 (c - a)) && (wrap32 (c - a) <=? modulus - 4).

(** The four byte addresses of the word at [a]. *)
Definition in_word (a x : Z) : bool :=
  (x =? wrap32 a) || (x =? wrap32 (a + 1)) ||
  (x =? wrap32 (a + 2)) || (x =? wrap32 (a + 3)).

(** ** Machine state *)

(** The instruction set the core executes.  The macros are ARM code
    ([.arm] in [ENTRY]); a write to the program counter can leave the core
    in Thumb state. *)
Inductive instr_set : Type := InstrSet_ARM | InstrSet_Thumb.

(** [iset] is [None] once an instruction has been executed for which the
    architecture defines no behaviour (UNPREDICTABLE). *)
Record state : Type := mkState {
  regs : reg -> Z;
  pc : Z;
  mem : memory;
  iset : option instr_set
}.

Definition get_reg (st : state) (r : reg) : Z := wrap32 (regs st r).

Definition set_reg (r : reg) (v : Z) (st : state) : state :=
  mkState (fun x => if reg_eqb x r then v else regs st x) (pc st) (mem st) (iset st).

Definition get_pc (st : state) : Z := wrap32 (pc st).

Definition set_pc (v : Z) (st : state) : state :=
  mkState (regs st) v (mem st) (iset st).

Definition set_mem (m : memory) (st : state) : state :=
  mkState (regs st) (pc st) m (iset st).

Definition set_iset (i : option instr_set) (st : state) : state :=
  mkState (regs st) (pc st) (mem st) i.

(** ** The ARM instructions of the header *)

(** The flexible second operand: an immediate, or a register shifted
    left by a constant ([\vreg, lsl #2]). *)
Inductive operand2 : Type :=
| Imm (n : Z)
| Reg (rm : reg)
| Lsl (rm : reg) (sh : Z).

Definition eval_operand2 (st : state) (o : operand2) : Z :=
  match o with
  | Imm n => n
  | Reg rm => get_reg st rm
  | Lsl rm sh => wrap32 (Z.shiftl (get_reg st rm) sh)
  end.

(** Effective address of [[rn, o]]. *)
Definition ea (st : state) (rn : reg) (o : operand2) : Z :=
  wrap32 (get_reg st rn + eval_operand2 st o).

Definition cmd : Type := state -> state.

Definition seq (c1 c2 : cmd) : cmd := fun st => c2 (c1 st).
Notation "c1 ;; c2" := (seq c1 c2) (at level 61, left associativity).

Definition mov (rd : reg) (o : operand2) : cmd :=
  fun st => set_reg rd (eval_operand2 st o) st.

Definition add (rd rn : reg) (o : operand2) : cmd :=
  fun st => set_reg rd (get_reg st rn + eval_operand2 st o) st.

Definition sub (rd rn : reg) (o : operand2) : cmd :=
  fun st => set_reg rd (get_reg st rn - eval_operand2 st o) st.

Definition and_ (rd rn : reg) (o : operand2) : cmd :=
  fun st => set_reg rd (Z.land (get_reg st rn) (eval_operand2 st o)) st.

(** [asr rd, #n]: arithmetic shift right of [rd], in place. *)
Definition asr (rd : reg) (n : Z) : cmd :=
  fun st => set_reg rd (Z.shiftr (signed32 (get_reg st rd)) n) st.

(** The interworking write of the program counter (BXWritePC), which an
    ARMv7 core in ARM state performs for a data-processing instruction whose
    destination is the pc: bit 0 of the address selects Thumb state and is
    cleared; with bit 0 clear, bit 1 must be clear too for a branch in ARM
    state, and bits 1:0 = 10 are UNPREDICTABLE. *)
Definition BXWritePC (address : Z) : cmd :=
  fun st =>
    if Z.testbit address 0
    then set_iset (Some InstrSet_Thumb) (set_pc (Z.clearbit address 0) st)
    else if Z.testbit address 1
    then set_iset None st
    else set_iset (Some InstrSet_ARM) (set_pc address st).

(** [add pc, rn, o]: the computed branch, an interworking write of the
    32-bit sum. *)
Definition add_pc (rn : reg) (o : operand2) : cmd :=
  fun st => BXWritePC (wrap32 (get_reg st rn + eval_operand2 st o)) st.

(** [str rt, [rn, o]] *)
Definition str (rt rn : reg) (o : operand2) : cmd :=
  fun st => set_mem (store32 (mem st) (ea st rn o) (get_reg st rt)) st.

(** [ldr rt, [rn, o]] *)
Definition ldr (rt rn : reg) (o : operand2) : cmd :=
  fun st => set_reg rt (load32 (mem st) (ea st rn o)) st.

(** [ldrh rt, [rn, o]] *)
Definition ldrh (rt rn : reg) (o : operand2) : cmd :=
  fun st => set_reg rt (load16 (mem st) (ea st rn o)) st.

(** [ldrh rt, [rn, o]!]: pre-indexed, the address is written back to [rn]. *)
Definition ldrh_wb (rt rn : reg) (o : operand2) : cmd :=
  fun st =>
    let a := ea st rn o in
    set_reg rt (load16 (mem st) a) (set_reg rn a st).

(** [ldrsh rt, [rn, o]] *)
Definition ldrsh (rt rn : reg) (o : operand2) : cmd :=
  fun st => set_reg rt (signed16 (load16 (mem st) (ea st rn o))) st.

(** [ldrb rt, [rn, o]] *)
Definition ldrb (rt rn : reg) (o : operand2) : cmd :=
  fun st => set_reg rt (load8 (mem st) (ea st rn o)) st.

(** ** Constants of the build *)

(** [header.S] includes [asm_support.h] for the field offsets of the shadow
    frame, of the code item and of the thread, and is expanded by the mterp
    generator with the handler size.  They are parameters of the macros. *)
Record asm_support : Type := mkAsmSupport {
  SHADOWFRAME_LINK_OFFSET : Z;
  SHADOWFRAME_METHOD_OFFSET : Z;
  SHADOWFRAME_RESULT_REGISTER_OFFSET : Z;
  SHADOWFRAME_DEX_PC_PTR_OFFSET : Z;
  SHADOWFRAME_CODE_ITEM_OFFSET : Z;
  SHADOWFRAME_NUMBER_OF_VREGS_OFFSET : Z;
  SHADOWFRAME_DEX_PC_OFFSET : Z;
  SHADOWFRAME_VREGS_OFFSET : Z;
  CODEITEM_INSNS_OFFSET : Z;
  THREAD_CURRENT_IBASE_OFFSET : Z;
  handler_size_bits : Z
}.

(** ** The macros of [header.S] *)

Module Mterp.
Section Macros.

Variable K : asm_support.

(** Instead of holding a pointer to the shadow frame, rFP is kept at the
    base of the vregs: the other fields are at a backwards offset. *)
Definition OFF_FP (a : Z) : Z := a - SHADOWFRAME_VREGS_OFFSET K.
Definition OFF_FP_NUMBER_OF_VREGS : Z := OFF_FP (SHADOWFRAME_NUMBER_OF_VREGS_OFFSET K).
Definition OFF_FP_DEX_PC : Z := OFF_FP (SHADOWFRAME_DEX_PC_OFFSET K).
Definition OFF_FP_LINK : Z := OFF_FP (SHADOWFRAME_LINK_OFFSET K).
Definition OFF_FP_METHOD : Z := OFF_FP (SHADOWFRAME_METHOD_OFFSET K).
Definition OFF_FP_RESULT_REGISTER : Z := OFF_FP (SHADOWFRAME_RESULT_REGISTER_OFFSET K).
Definition OFF_FP_DEX_PC_PTR : Z := OFF_FP (SHADOWFRAME_DEX_PC_PTR_OFFSET K).
Definition OFF_FP_CODE_ITEM : Z := OFF_FP (SHADOWFRAME_CODE_ITEM_OFFSET K).
Definition OFF_FP_SHADOWFRAME : Z := OFF_FP 0.

Definition EXPORT_PC : cmd :=
  str rPC rFP (Imm OFF_FP_DEX_PC_PTR).

Definition EXPORT_DEX_PC (tmp : reg) : cmd :=
  ldr tmp rFP (Imm OFF_FP_CODE_ITEM) ;;
  str rPC rFP (Imm OFF_FP_DEX_PC_PTR) ;;
  add tmp tmp (Imm (CODEITEM_INSNS_OFFSET K)) ;;
  sub tmp rPC (Reg tmp) ;;
  asr tmp 1 ;;
  str tmp rFP (Imm OFF_FP_DEX_PC).

Definition FETCH_INST : cmd :=
  ldrh rINST rPC (Imm 0).

Definition FETCH_ADVANCE_INST (count : Z) : cmd :=
  ldrh_wb rINST rPC (Imm (count * 2)).

Definition PREFETCH_ADVANCE_INST (dreg sreg : reg) (count : Z) : cmd :=
  ldrh_wb dreg sreg (Imm (count * 2)).

Definition PREFETCH_INST (count : Z) : cmd :=
  ldrh rINST rPC (Imm (count * 2)).

Definition ADVANCE (count : Z) : cmd :=
  add rPC rPC (Imm (count * 2)).

Definition FETCH_ADVANCE_INST_RB (reg : reg) : cmd :=
  ldrh_wb rINST rPC (Reg reg).

Definition FETCH (reg : reg) (count : Z) : cmd :=
  ldrh reg rPC (Imm (count * 2)).

Definition FETCH_S (reg : reg) (count : Z) : cmd :=
  ldrsh reg rPC (Imm (count * 2)).

Definition FETCH_B (reg : reg) (count byte : Z) : cmd :=
  ldrb reg rPC (Imm (count * 2 + byte)).

Definition GET_INST_OPCODE (reg : reg) : cmd :=
  and_ reg rINST (Imm 255).

Definition GET_PREFETCHED_OPCODE (oreg ireg : reg) : cmd :=
  and_ oreg ireg (Imm 255).

Definition GOTO_OPCODE (reg : reg) : cmd :=
  add_pc rIBASE (Lsl reg (handler_size_bits K)).

Definition GOTO_OPCODE_BASE (base reg : reg) : cmd :=
  add_pc base (Lsl reg (handler_size_bits K)).

Definition GET_VREG (reg vreg : reg) : cmd :=
  ldr reg rFP (Lsl vreg 2).

Definition SET_VREG (reg vreg : reg) : cmd :=
  str reg rFP (Lsl vreg 2) ;;
  mov reg (Imm 0) ;;
  str reg rREFS (Lsl vreg 2).

Definition SET_VREG_OBJECT (reg vreg tmpreg : reg) : cmd :=
  str reg rFP (Lsl vreg 2) ;;
  str reg rREFS (Lsl vreg 2).

Definition SET_VREG_SHADOW (reg vreg : reg) : cmd :=
  str reg rREFS (Lsl vreg 2).

Definition CLEAR_SHADOW_PAIR (vreg tmp1 tmp2 : reg) : cmd :=
  mov tmp1 (Imm 0) ;;
  add tmp2 vreg (Imm 1) ;;
  SET_VREG_SHADOW tmp1 vreg ;;
  SET_VREG_SHADOW tmp1 tmp2.

Definition VREG_INDEX_TO_ADDR (reg vreg : reg) : cmd :=
  add reg rFP (Lsl vreg 2).

Definition REFRESH_IBASE : cmd :=
  ldr rIBASE rSELF (Imm (THREAD_CURRENT_IBASE_OFFSET K)).

(** *** The frame as the macros see it *)

(** The value slot and the shadow slot of virtual register [i]: the words
    that [GET_VREG] and [SET_VREG_SHADOW] address when the index register
    holds [i]. *)
Definition vreg_addr (st : state) (i : Z) : Z :=
  wrap32 (get_reg st rFP + wrap32 (Z.shiftl (wrap32 i) 2)).

Definition shadow_addr (st : state) (i : Z) : Z :=
  wrap32 (get_reg st rREFS + wrap32 (Z.shiftl (wrap32 i) 2)).

Definition values (st : state) (i : Z) : Z := load32 (mem st) (vreg_addr st i).

Definition refShadow (st : state) (i : Z) : Z := load32 (mem st) (shadow_addr st i).

(** The live fetch cursor, and the two export fields of the frame. *)
Definition cursor (st : state) : Z := get_reg st rPC.

Definition exportedPC (st : state) : Z :=
  load32 (mem st) (get_reg st rFP + OFF_FP_DEX_PC).

Definition exportedPCPointer (st : state) : Z :=
  load32 (mem st) (get_reg st rFP + OFF_FP_DEX_PC_PTR).

Definition codeItem (st : state) : Z :=
  load32 (mem st) (get_reg st rFP + OFF_FP_CODE_ITEM).

(** The logical dex pc of the cursor: its distance in code units from the
    instruction array of the frame's code item, as [EXPORT_DEX_PC]
    computes it. *)
Definition dex_pc_of_cursor (st : state) : Z :=
  wrap32 (Z.shiftr (signed32 (cursor st - (codeItem st + CODEITEM_INSNS_OFFSET K))) 1).

(** The 16-bit code unit [k] units past address [base]. *)
Definition code_unit (st : state) (base k : Z) : Z :=
  load16 (mem st) (base + 2 * k).

End Macros.
End Mterp.

Import Mterp.

(** ** The register file and its call sites *)

(** A register file of [n] slots: the value array starts at rFP, the shadow
    array at rREFS; neither wraps around the address space and the two do
    not overlap. *)
Definition register_file (n : Z) (st : state) : bool :=
  (0 <=? n) &&
  (get_reg st rFP + 4 * n <=? modulus) &&
  (get_reg st rREFS + 4 * n <=? modulus) &&
  ((get_reg st rFP + 4 * n <=? get_reg st rREFS) ||
   (get_reg st rREFS + 4 * n <=? get_reg st rFP)).

(** A handler uses a register-file macro with the operands already in the
    registers it names: the value in [reg], the slot index in [vreg]. *)
Inductive rf_call : Type :=
| setPrimitive (reg vreg : reg) (i v : Z)
| setReference (reg vreg tmpreg : reg) (i ref : Z)
| clearShadowPair (vreg tmp1 tmp2 : reg) (i : Z).

Definition run_call (c : rf_call) : cmd :=
  match c with
  | setPrimitive reg vreg i v =>
      mov reg (Imm v) ;; mov vreg (Imm i) ;; SET_VREG reg vreg
  | setReference reg vreg tmpreg i ref =>
      mov reg (Imm ref) ;; mov vreg (Imm i) ;; SET_VREG_OBJECT reg vreg tmpreg
  | clearShadowPair vreg tmp1 tmp2 i =>
      mov vreg (Imm i) ;; CLEAR_SHADOW_PAIR vreg tmp1 tmp2
  end.

(** Reading slot [i] into [reg]: [GET_VREG] with the index in [vreg]. *)
Definition get_call (reg vreg : reg) (i : Z) : cmd :=
  mov vreg (Imm i) ;; GET_VREG reg vreg.

Fixpoint run_calls (cs : list rf_call) (st : state) : state :=
  match cs with
  | [] => st
  | c :: cs' => run_calls cs' (run_call c st)
  end.

(** Operand registers a handler may load: anything but the pinned frame
    registers. *)
Definition scratch (r : reg) : bool :=
  negb (reg_eqb r rFP) && negb (reg_eqb r rREFS).

Definition word32 (v : Z) : bool := (0 <=? v) && (v <? modulus).

(** A call on a register file of [n] slots: distinct scratch operands, the
    slot (both slots, for a pair) inside the file, a 32-bit value. *)
Definition call_ok (n : Z) (c : rf_call) : bool :=
  match c with
  | setPrimitive reg vreg i v =>
      scratch reg && scratch vreg && negb (reg_eqb reg vreg) &&
      (0 <=? i) && (i <? n) && word32 v
  | setReference reg vreg tmpreg i ref =>
      scratch reg && scratch vreg && negb (reg_eqb reg vreg) &&
      (0 <=? i) && (i <? n) && word32 ref
  | clearShadowPair vreg tmp1 tmp2 i =>
      scratch vreg && scratch tmp1 && scratch tmp2 &&
      negb (reg_eqb tmp1 vreg) && negb (reg_eqb tmp2 vreg) &&
      negb (reg_eqb tmp1 tmp2) &&
      (0 <=? i) && (i + 1 <? n)
  end.

(** What a call writes to slot [i], if it writes to it. *)
Inductive slot_write : Type :=
| WPrimitive (v : Z)
| WReference (ref : Z)
| WShadowCleared.

Definition write_of (c : rf_call) (i : Z) : option slot_write :=
  match c with
  | setPrimitive _ _ j v => if j =? i then Some (WPrimitive v) else None
  | setReference _ _ _ j ref => if j =? i then Some (WReference ref) else None
  | clearShadowPair _ _ _ j =>
      if (j =? i) || (j + 1 =? i) then Some WShadowCleared else None
  end.

(** The most recent write to slot [i] in a sequence of calls (in program
    order, the first call at the head). *)
Fixpoint last_write (cs : list rf_call) (i : Z) : option slot_write :=
  match cs with
  | [] => None
  | c :: cs' =>
      match last_write cs' i with
      | Some w => Some w
      | None => write_of c i
      end
  end.

Definition last_write_is_setReference (cs : list rf_call) (i : Z) : bool :=
  match last_write cs i with
  | Some (WReference _) => true
  | _ => false
  end.

(** The shadow word that the most recent write leaves in a slot. *)
Definition shadow_after (w : slot_write) : Z :=
  match w with
  | WPrimitive _ => 0
  | WReference ref => ref
  | WShadowCleared => 0
  end.

(** ** Fetch and dispatch *)

(** [n] fetches in a row with no advance. *)
Fixpoint repeat_fetch (n : nat) (st : state) : state :=
  match n with
  | O => st
  | S n' => repeat_fetch n' (FETCH_INST st)
  end.

(** Decode and dispatch, as every handler ends:
    [GET_INST_OPCODE reg] then [GOTO_OPCODE reg]. *)
Definition dispatch (K : asm_support) (reg : reg) : cmd :=
  GET_INST_OPCODE reg ;; GOTO_OPCODE K reg.

(** Start address of the handler of opcode [b] in a table at [base]. *)
Definition handler_entry (K : asm_support) (base b : Z) : Z :=
  base + b * 2 ^ handler_size_bits K.

(** ** Sample inputs *)

(** A sample build: a 32-bit shadow frame with the vregs 32 bytes in, and
    128-byte handlers. *)
Definition sample_support : asm_support :=
  {| SHADOWFRAME_LINK_OFFSET := 0;
     SHADOWFRAME_METHOD_OFFSET := 4;
     SHADOWFRAME_RESULT_REGISTER_OFFSET := 8;
     SHADOWFRAME_DEX_PC_PTR_OFFSET := 12;
     SHADOWFRAME_CODE_ITEM_OFFSET := 16;
     SHADOWFRAME_NUMBER_OF_VREGS_OFFSET := 24;
     SHADOWFRAME_DEX_PC_OFFSET := 28;
     SHADOWFRAME_VREGS_OFFSET := 32;
     CODEITEM_INSNS_OFFSET := 16;
     THREAD_CURRENT_IBASE_OFFSET := 128;
     handler_size_bits := 7 |}.

(** Memory holding the bytes [bs] from address [base] on, zero elsewhere. *)
Definition mem_of_bytes (base : Z) (bs : list Z) : memory :=
  fun a =>
    if (base <=? a) && (a <? base + Z.of_nat (length bs))
    then nth (Z.to_nat (a - base)) bs 0
    else 0.

(** The instruction stream [0x1234, 0x5678, 0x9ABC], little endian. *)
Definition sample_stream : list Z := [0x34; 0x12; 0x78; 0x56; 0xBC; 0x9A].

(** A frame with 4 registers: shadow frame at [0x2000], vregs at [0x2020],
    shadow array right behind them at [0x2030]; code item at [0x0FF0], so
    that its instructions start at [0x1000], where the cursor is; handler
    table at [0x8000]; the exported dex pc field holds 7. *)
Definition sample_regs (r : reg) : Z :=
  match r with
  | r4 => 0x1000
  | r5 => 0x2020
  | r11 => 0x2030
  | r8 => 0x8000
  | _ => 0
  end.

Definition sample_mem : memory :=
  fun a =>
    if a =? 0x2010 then 0xF0
    else if a =? 0x2011 then 0x0F
    else if a =? 0x201C then 7
    else mem_of_bytes 0x1000 sample_stream a.

Definition sample_state : state :=
  mkState sample_regs 0 sample_mem (Some InstrSet_ARM).

(** An object reference, for the scenarios. *)
Definition objA : Z := 0x12C00010.

(** The sample frame with references in slots 2 and 3, and the index
    register r1 at slot 2. *)
Definition sample_pair_state : state :=
  mov r1 (Imm 2)
    (run_calls [setReference r0 r1 r2 2 objA; setReference r0 r1 r2 3 objA]
       sample_state).

(** ** The stream operator of [MutatorLockedDumpable] *)

Module Dumpable.
Section Operator.

(** What [dumpable-inl.h] takes from [base/dumpable.h], [base/mutex.h] and
    [thread-inl.h]: the runtime state the collaborators act on (lock
    ownership, stream contents), the calling thread, the check of the
    mutator lock, and the [Dump] method of the wrapped object.  A check
    or a dump that does not return (the runtime aborts) yields [None]. *)
Variables World Thread ostream T : Type.
Variable Thread_Current : World -> Thread.
Variable AssertSharedHeld : Thread -> World -> option World.
Variable Dump : T -> ostream -> World -> option World.

(** The calls made to the collaborators, in the order they are made. *)
Inductive call : Type :=
| CallAssertSharedHeld (self : Thread)
| CallDump (rhs : T) (os : ostream).

(** A computation threads the runtime state and the log of calls; the log
    survives an abort. *)
Definition M (A : Type) : Type :=
  World -> list call -> option (A * World) * list call.

Definition ret {A : Type} (a : A) : M A :=
  fun w log => (Some (a, w), log).

Definition bind {A B : Type} (m : M A) (k : A -> M B) : M B :=
  fun w log =>
    match m w log with
    | (Some (a, w'), log') => k a w' log'
    | (None, log') => (None, log')
    end.

Definition invoke (c : call) (f : World -> option World) : M unit :=
  fun w log =>
    (match f w with Some w' => Some (tt, w') | None => None end, log ++ [c]).

Definition current : M Thread :=
  fun w log => (Some (Thread_Current w, w), log).

Definition mutator_lock_AssertSharedHeld (self : Thread) : M unit :=
  invoke (CallAssertSharedHeld self) (AssertSharedHeld self).

Definition rhs_Dump (rhs : T) (os : ostream) : M unit :=
  invoke (CallDump rhs os) (Dump rhs os).

(** [operator<<(std::ostream& os, const MutatorLockedDumpable<T>& rhs)] *)
Definition operator_shl (os : ostream) (rhs : T) : M ostream :=
  bind current (fun self =>
  bind (mutator_lock_AssertSharedHeld self) (fun _ =>
  bind (rhs_Dump rhs os) (fun _ =>
  ret os))).

Definition is_dump (c : call) : bool :=
  match c with CallDump _ _ => true | _ => false end.

End Operator.
End Dumpable.

(** Sample collaborators: the runtime state is whether the mutator lock is
    held shared and the text of the one stream; the check aborts when the
    lock is not held, the dump appends the object to the stream. *)
Definition sample_AssertSharedHeld (self : unit) (w : bool * list Z)
  : option (bool * list Z) :=
  if fst w then Some w else None.

Definition sample_Dump (rhs : Z) (os : unit) (w : bool * list Z)
  : option (bool * list Z) :=
  Some (fst w, snd w ++ [rhs]).

(** ** Observations used by the further properties *)

(** Two states that no macro can tell apart: the same 32-bit value in every
    register and in the program counter, the same memory, the same
    instruction set. *)
Definition state_eq (s1 s2 : state) : Prop :=
  (forall r, get_reg s1 r = get_reg s2 r) /\
  get_pc s1 = get_pc s2 /\
  (forall x, mem s1 x = mem s2 x) /\
  iset s1 = iset s2.

(** The byte at address [a], as [ldrb] reads it. *)
Definition byte_at (st : state) (a : Z) : Z := load8 (mem st) a.

(** A slot is consistent for the collector when its shadow is null or is
    the very word in the value slot. *)
Definition shadow_consistent (st : state) (i : Z) : bool :=
  (refShadow st i =? 0) || (refShadow st i =? values st i).

(** The value a call stores into slot [i], if it stores one: a
    [clearShadowPair] stores none. *)
Definition value_of (c : rf_call) (i : Z) : option Z :=
  match c with
  | setPrimitive _ _ j v => if j =? i then Some v else None
  | setReference _ _ _ j ref => if j =? i then Some ref else None
  | clearShadowPair _ _ _ _ => None
  end.

Fixpoint last_value (cs : list rf_call) (i : Z) : option Z :=
  match cs with
  | [] => None
  | c :: cs' =>
      match last_value cs' i with
      | Some v => Some v
      | None => value_of c i
      end
  end.

(** The slots a call writes to. *)
Definition slots_of (c : rf_call) : list Z :=
  match c with
  | setPrimitive _ _ j _ => [j]
  | setReference _ _ _ j _ => [j]
  | clearShadowPair _ _ _ j => [j; j + 1]
  end.

Definition independent (c1 c2 : rf_call) : bool :=
  forallb (fun i => negb (existsb (Z.eqb i) (slots_of c2))) (slots_of c1).

(** *** Chained stream output *)

Module DumpChain.
Section Chain.

Import Dumpable.

Variables World Thread ostream T : Type.
Variable Thread_Current : World -> Thread.
Variable AssertSharedHeld : Thread -> World -> option World.
Variable Dump : T -> ostream -> World -> option World.

(** [os << a << b << ...]: each operator is applied to the stream the one
    before it returned. *)
Fixpoint chain (os : ostream) (rhss : list T) : M World Thread ostream T ostream :=
  match rhss with
  | [] => ret World Thread ostream T os
  | rhs :: rest =>
      bind World Thread ostream T
        (operator_shl World Thread ostream T Thread_Current AssertSharedHeld Dump os rhs)
        (fun os' => chain os' rest)
  end.

(** A log in which every [Dump] comes right after an [AssertSharedHeld];
    [held] tells whether the call before the log was such an assertion. *)
Fixpoint locked_dumps (held : bool) (log : list (call Thread ostream T)) : bool :=
  match log with
  | [] => true
  | CallAssertSharedHeld _ _ _ _ :: rest => locked_dumps true rest
  | CallDump _ _ _ _ _ :: rest => held && locked_dumps false rest
  end.

(** The objects dumped, in the order of the log. *)
Fixpoint dumped (log : list (call Thread ostream T)) : list T :=
  match log with
  | [] => []
  | CallAssertSharedHeld _ _ _ _ :: rest => dumped rest
  | CallDump _ _ _ rhs _ :: rest => rhs :: dumped rest
  end.

End Chain.
End DumpChain.

(** * Properties *)

(** ** Words and registers *)

Lemma wrap32_range z : 0 <= wrap32 z < modulus.
Proof. unfold wrap32. apply Z.mod_pos_bound. reflexivity. Qed.

Lemma wrap32_small z : 0 <= z < modulus -> wrap32 z = z.
Proof. intros H. unfold wrap32. now apply Z.mod_small. Qed.

Lemma wrap32_idem z : wrap32 (wrap32 z) = wrap32 z.
Proof. apply wrap32_small, wrap32_range. Qed.

Lemma wrap32_add_l a b : wrap32 (wrap32 a + b) = wrap32 (a + b).
Proof. unfold wrap32. now rewrite Z.add_mod_idemp_l. Qed.

Lemma wrap32_add_r a b : wrap32 (a + wrap32 b) = wrap32 (a + b).
Proof. unfold wrap32. now rewrite Z.add_mod_idemp_r. Qed.

(** Goals about addresses modulo [2^32] go to [lia] once the remainders are
    named. *)
Ltac wrap_lia :=
  unfold wrap32, modulus in *;
  change (2 ^ 32) with 4294967296 in *;
  Z.div_mod_to_equations; lia.

Lemma reg_eqb_refl a : reg_eqb a a = true.
Proof. unfold reg_eqb. destruct (reg_eq_dec a a); congruence. Qed.

Lemma reg_eqb_neq a b : a <> b -> reg_eqb a b = false.
Proof. unfold reg_eqb. destruct (reg_eq_dec a b); congruence. Qed.

Lemma reg_eqb_false a b : reg_eqb a b = false -> a <> b.
Proof. unfold reg_eqb. destruct (reg_eq_dec a b); congruence. Qed.

Lemma get_reg_range st r : 0 <= get_reg st r < modulus.
Proof. apply wrap32_range. Qed.

Lemma get_set_reg_same r v st : get_reg (set_reg r v st) r = wrap32 v.
Proof. unfold get_reg, set_reg; simpl. now rewrite reg_eqb_refl. Qed.

Lemma get_set_reg_other r r' v st :
  r' <> r -> get_reg (set_reg r v st) r' = get_reg st r'.
Proof. intros H. unfold get_reg, set_reg; simpl. now rewrite reg_eqb_neq. Qed.

Lemma get_reg_set_mem m st r : get_reg (set_mem m st) r = get_reg st r.
Proof. reflexivity. Qed.

Lemma get_reg_set_pc v st r : get_reg (set_pc v st) r = get_reg st r.
Proof. reflexivity. Qed.

Lemma get_reg_set_iset i st r : get_reg (set_iset i st) r = get_reg st r.
Proof. reflexivity. Qed.

Lemma get_reg_BXWritePC a st r : get_reg (BXWritePC a st) r = get_reg st r.
Proof.
  unfold BXWritePC. destruct (Z.testbit a 0); [reflexivity |].
  now destruct (Z.testbit a 1).
Qed.

Lemma mem_BXWritePC a st : mem (BXWritePC a st) = mem st.
Proof.
  unfold BXWritePC. destruct (Z.testbit a 0); [reflexivity |].
  now destruct (Z.testbit a 1).
Qed.

(** ** Memory *)

Lemma lor_shiftl_add x y k :
  0 <= k -> 0 <= x < 2 ^ k -> Z.lor x (Z.shiftl y k) = x + y * 2 ^ k.
Proof.
  intros Hk Hx.
  rewrite <- Z.shiftl_mul_pow2 by assumption.
  assert (Hd : Z.land x (Z.shiftl y k) = 0).
  { apply Z.bits_inj'. intros n Hn.
    rewrite Z.land_spec, Z.bits_0.
    destruct (Z.lt_ge_cases n k) as [Hlt | Hge].
    - rewrite Z.shiftl_spec_low by assumption. apply andb_false_r.
    - destruct (Z.eq_dec x 0) as [-> | Hx0].
      + now rewrite Z.bits_0.
      + rewrite (Z.bits_above_log2 x n); [reflexivity | lia |].
        apply Z.lt_le_trans with k; [| assumption].
        apply Z.log2_lt_pow2; lia. }
  rewrite Z.add_nocarry_lxor by assumption.
  symmetry. now apply Z.lxor_lor.
Qed.

Lemma load8_range m a : 0 <= load8 m a < 256.
Proof. unfold load8. apply Z.mod_pos_bound. reflexivity. Qed.

Lemma load16_sum m a : load16 m a = load8 m a + load8 m (a + 1) * 256.
Proof.
  unfold load16. rewrite lor_shiftl_add; [reflexivity | lia |].
  apply load8_range.
Qed.

Lemma load16_range m a : 0 <= load16 m a < 65536.
Proof.
  rewrite load16_sum.
  pose proof (load8_range m a). pose proof (load8_range m (a + 1)). lia.
Qed.

Lemma load32_sum m a :
  load32 m a =
  load8 m a + load8 m (a + 1) * 256 + load8 m (a + 2) * 65536
  + load8 m (a + 3) * 16777216.
Proof.
  unfold load32. rewrite lor_shiftl_add; [| lia | apply load16_range].
  rewrite !load16_sum.
  replace (a + 2 + 1) with (a + 3) by lia.
  change (2 ^ 16) with 65536. lia.
Qed.

Lemma load32_range m a : 0 <= load32 m a < modulus.
Proof.
  rewrite load32_sum. unfold modulus. change (2 ^ 32) with 4294967296.
  pose proof (load8_range m a). pose proof (load8_range m (a + 1)).
  pose proof (load8_range m (a + 2)). pose proof (load8_range m (a + 3)).
  lia.
Qed.

Lemma load8_ext m m' a : m (wrap32 a) = m' (wrap32 a) -> load8 m a = load8 m' a.
Proof. unfold load8. now intros ->. Qed.

Lemma load32_ext m m' a :
  (forall x, in_word a x = true -> m x = m' x) -> load32 m a = load32 m' a.
Proof.
  intros H. rewrite !load32_sum.
  rewrite (load8_ext m m' a), (load8_ext m m' (a + 1)),
    (load8_ext m m' (a + 2)), (load8_ext m m' (a + 3)); try reflexivity;
    apply H; unfold in_word; rewrite Z.eqb_refl; repeat rewrite orb_true_r;
    reflexivity.
Qed.

(** A word store changes the four bytes of the word and nothing else. *)
Lemma store32_outside m a v x :
  in_word a x = false -> store32 m a v x = m x.
Proof.
  unfold in_word, store32, store8. intros H.
  repeat (apply orb_false_iff in H; destruct H as [H ?]).
  now repeat match goal with E : (_ =? _) = false |- _ => rewrite E; clear E end.
Qed.

Lemma store32_byte0 m a v : store32 m a v (wrap32 a) = v.
Proof.
  unfold store32, store8.
  replace (wrap32 a =? wrap32 (a + 3)) with false by (symmetry; apply Z.eqb_neq; wrap_lia).
  replace (wrap32 a =? wrap32 (a + 2)) with false by (symmetry; apply Z.eqb_neq; wrap_lia).
  replace (wrap32 a =? wrap32 (a + 1)) with false by (symmetry; apply Z.eqb_neq; wrap_lia).
  now rewrite Z.eqb_refl.
Qed.

Lemma store32_byte1 m a v : store32 m a v (wrap32 (a + 1)) = Z.shiftr v 8.
Proof.
  unfold store32, store8.
  replace (wrap32 (a + 1) =? wrap32 (a + 3)) with false by (symmetry; apply Z.eqb_neq; wrap_lia).
  replace (wrap32 (a + 1) =? wrap32 (a + 2)) with false by (symmetry; apply Z.eqb_neq; wrap_lia).
  now rewrite Z.eqb_refl.
Qed.

Lemma store32_byte2 m a v : store32 m a v (wrap32 (a + 2)) = Z.shiftr v 16.
Proof.
  unfold store32, store8.
  replace (wrap32 (a + 2) =? wrap32 (a + 3)) with false by (symmetry; apply Z.eqb_neq; wrap_lia).
  now rewrite Z.eqb_refl.
Qed.

Lemma store32_byte3 m a v : store32 m a v (wrap32 (a + 3)) = Z.shiftr v 24.
Proof. unfold store32, store8. now rewrite Z.eqb_refl. Qed.

(** Reading back the word just stored. *)
Lemma load32_store32_same m a v : load32 (store32 m a v) a = wrap32 v.
Proof.
  rewrite load32_sum. unfold load8.
  rewrite store32_byte0, store32_byte1, store32_byte2, store32_byte3.
  rewrite !Z.shiftr_div_pow2 by lia.
  unfold wrap32, modulus.
  change (2 ^ 8) with 256. change (2 ^ 16) with 65536.
  change (2 ^ 24) with 16777216. change (2 ^ 32) with 4294967296.
  Z.div_mod_to_equations. lia.
Qed.

Lemma apart_in_word a c x :
  apart a c = true -> in_word c x = true -> in_word a x = false.
Proof.
  unfold apart, in_word. intros Ha Hc.
  apply andb_true_iff in Ha. destruct Ha as [H1 H2].
  apply Z.leb_le in H1, H2.
  repeat (apply orb_true_iff in Hc; destruct Hc as [Hc | Hc]);
    apply Z.eqb_eq in Hc; subst x;
    repeat (apply orb_false_iff; split); apply Z.eqb_neq; wrap_lia.
Qed.

(** Reading a word that shares no byte with the word stored. *)
Lemma load32_store32_apart m a v c :
  apart a c = true -> load32 (store32 m a v) c = load32 m c.
Proof.
  intros H. apply load32_ext. intros x Hx.
  apply store32_outside. now apply (apart_in_word a c).
Qed.

(** Storing the same word twice is storing it once. *)
Lemma store32_twice m a v x : store32 (store32 m a v) a v x = store32 m a v x.
Proof.
  unfold store32, store8.
  repeat match goal with |- context [?p =? ?q] => destruct (p =? q) end;
    reflexivity.
Qed.

Lemma load8_wrap m a : load8 m (wrap32 a) = load8 m a.
Proof. unfold load8. now rewrite wrap32_idem. Qed.

Lemma load8_wrap_add m a k : load8 m (wrap32 a + k) = load8 m (a + k).
Proof. unfold load8. now rewrite wrap32_add_l. Qed.

Lemma load16_wrap m a : load16 m (wrap32 a) = load16 m a.
Proof. rewrite !load16_sum. now rewrite load8_wrap, load8_wrap_add. Qed.

Lemma load32_wrap m a : load32 m (wrap32 a) = load32 m a.
Proof. rewrite !load32_sum. now rewrite load8_wrap, !load8_wrap_add. Qed.

Lemma in_word_wrap a x : in_word (wrap32 a) x = in_word a x.
Proof. unfold in_word. now rewrite wrap32_idem, !wrap32_add_l. Qed.

Lemma store32_wrap m a v x : store32 m (wrap32 a) v x = store32 m a v x.
Proof. unfold store32, store8. now rewrite wrap32_idem, !wrap32_add_l. Qed.

Lemma apart_wrap_l a c : apart (wrap32 a) c = apart a c.
Proof.
  unfold apart. replace (wrap32 (c - wrap32 a)) with (wrap32 (c - a)); [reflexivity |].
  unfold wrap32. now rewrite Zminus_mod_idemp_r.
Qed.

Lemma apart_wrap_r a c : apart a (wrap32 c) = apart a c.
Proof.
  unfold apart. replace (wrap32 (wrap32 c - a)) with (wrap32 (c - a)); [reflexivity |].
  unfold wrap32. now rewrite Zminus_mod_idemp_l.
Qed.

Lemma apart_sym a c : apart a c = true -> apart c a = true.
Proof.
  unfold apart. intros H. apply andb_true_iff in H. destruct H as [H1 H2].
  apply Z.leb_le in H1, H2.
  apply andb_true_iff; split; apply Z.leb_le; wrap_lia.
Qed.

(** ** Effect of the instructions *)

Lemma str_regs rt rn o st r : get_reg (str rt rn o st) r = get_reg st r.
Proof. reflexivity. Qed.

Lemma str_mem rt rn o st :
  mem (str rt rn o st) = store32 (mem st) (ea st rn o) (get_reg st rt).
Proof. reflexivity. Qed.

Lemma str_pc rt rn o st : get_pc (str rt rn o st) = get_pc st.
Proof. reflexivity. Qed.

Lemma ea_regs st st' rn o :
  (forall r, get_reg st' r = get_reg st r) -> ea st' rn o = ea st rn o.
Proof.
  intros H. unfold ea. rewrite H. destruct o; simpl; now rewrite ?H.
Qed.

(** ** Exporting the program counter *)

Section ExportPc.

Variable K : asm_support.

Lemma EXPORT_PC_regs st r : get_reg (EXPORT_PC K st) r = get_reg st r.
Proof. reflexivity. Qed.

Lemma EXPORT_PC_mem st :
  mem (EXPORT_PC K st) =
  store32 (mem st) (wrap32 (get_reg st rFP + OFF_FP_DEX_PC_PTR K)) (cursor st).
Proof. reflexivity. Qed.

Lemma EXPORT_PC_pointer st : exportedPCPointer K (EXPORT_PC K st) = cursor st.
Proof.
  unfold exportedPCPointer. rewrite EXPORT_PC_mem, EXPORT_PC_regs.
  rewrite <- load32_wrap, load32_store32_same.
  apply wrap32_idem.
Qed.

Lemma EXPORT_PC_dex_pc st :
  apart (get_reg st rFP + OFF_FP_DEX_PC_PTR K) (get_reg st rFP + OFF_FP_DEX_PC K) = true ->
  exportedPC K (EXPORT_PC K st) = exportedPC K st.
Proof.
  intros H. unfold exportedPC. rewrite EXPORT_PC_mem, EXPORT_PC_regs.
  apply load32_store32_apart. now rewrite apart_wrap_l.
Qed.

Lemma EXPORT_PC_twice_mem st x :
  mem (EXPORT_PC K (EXPORT_PC K st)) x = mem (EXPORT_PC K st) x.
Proof.
  rewrite (EXPORT_PC_mem (EXPORT_PC K st)).
  unfold cursor. rewrite !EXPORT_PC_regs, EXPORT_PC_mem.
  apply store32_twice.
Qed.

End ExportPc.

(** Reading a register after a chain of register and memory updates. *)
Ltac regs_simpl :=
  repeat first
    [ rewrite get_reg_set_mem
    | rewrite get_reg_set_pc
    | rewrite get_reg_set_iset
    | rewrite get_reg_BXWritePC
    | rewrite get_set_reg_same
    | rewrite get_set_reg_other by (assumption || congruence || discriminate) ].

Lemma mem_set_mem m st : mem (set_mem m st) = m.
Proof. reflexivity. Qed.

Lemma mem_set_reg r v st : mem (set_reg r v st) = mem st.
Proof. reflexivity. Qed.

Lemma mem_set_pc v st : mem (set_pc v st) = mem st.
Proof. reflexivity. Qed.

Ltac state_simpl :=
  repeat first
    [ progress regs_simpl
    | rewrite mem_set_mem
    | rewrite mem_set_reg
    | rewrite mem_set_pc
    | rewrite mem_BXWritePC ].

Lemma wrap32_sub_r a b : wrap32 (a - wrap32 b) = wrap32 (a - b).
Proof. unfold wrap32. now rewrite Zminus_mod_idemp_r. Qed.

Lemma signed32_wrap z : signed32 (wrap32 z) = signed32 z.
Proof. unfold signed32. now rewrite wrap32_idem. Qed.

Section ExportDexPc.

Variable K : asm_support.

Lemma EXPORT_DEX_PC_regs tmp st r :
  r <> tmp -> get_reg (EXPORT_DEX_PC K tmp st) r = get_reg st r.
Proof.
  intros H. unfold EXPORT_DEX_PC, seq, ldr, str, add, sub, asr.
  now regs_simpl.
Qed.

Lemma EXPORT_DEX_PC_mem tmp st :
  tmp <> rPC -> tmp <> rFP ->
  mem (EXPORT_DEX_PC K tmp st) =
  store32
    (store32 (mem st) (wrap32 (get_reg st rFP + OFF_FP_DEX_PC_PTR K)) (cursor st))
    (wrap32 (get_reg st rFP + OFF_FP_DEX_PC K))
    (dex_pc_of_cursor K st).
Proof.
  intros HPC HFP.
  assert (HPC' : rPC <> tmp) by congruence.
  assert (HFP' : rFP <> tmp) by congruence.
  unfold EXPORT_DEX_PC, seq, ldr, str, add, sub, asr, ea, eval_operand2.
  cbn [mem set_mem set_reg].
  regs_simpl.
  unfold dex_pc_of_cursor, cursor, codeItem.
  rewrite wrap32_sub_r, signed32_wrap.
  rewrite (wrap32_small (load32 _ _)) by apply load32_range.
  rewrite load32_wrap.
  reflexivity.
Qed.

Lemma EXPORT_DEX_PC_fields tmp st :
  tmp <> rPC -> tmp <> rFP ->
  apart (get_reg st rFP + OFF_FP_DEX_PC_PTR K) (get_reg st rFP + OFF_FP_DEX_PC K) = true ->
  exportedPCPointer K (EXPORT_DEX_PC K tmp st) = cursor st /\
  exportedPC K (EXPORT_DEX_PC K tmp st) = dex_pc_of_cursor K st.
Proof.
  intros HPC HFP Hap.
  unfold exportedPCPointer, exportedPC.
  rewrite EXPORT_DEX_PC_mem, EXPORT_DEX_PC_regs by congruence.
  split.
  - rewrite load32_store32_apart
      by (rewrite apart_wrap_l; now apply apart_sym).
    rewrite <- load32_wrap, load32_store32_same. apply wrap32_idem.
  - rewrite <- load32_wrap, load32_store32_same.
    unfold dex_pc_of_cursor. apply wrap32_idem.
Qed.

End ExportDexPc.

(** C3, as stated, fails: on the sample frame the cursor is at [0x1000], the
    first code unit of the method (logical dex pc 0), and the dex pc field
    holds 7.  After [EXPORT_PC] the pointer field holds the cursor, but the
    dex pc field still holds 7: neither the cursor nor its logical offset. *)
Lemma EXPORT_PC_dex_pc_field_counterexample :
  let st' := EXPORT_PC sample_support sample_state in
  cursor sample_state = 0x1000 /\
  dex_pc_of_cursor sample_support sample_state = 0 /\
  exportedPCPointer sample_support st' = 0x1000 /\
  exportedPC sample_support st' = 7 /\
  ~ (exportedPC sample_support st' = cursor sample_state /\
     exportedPCPointer sample_support st' = cursor sample_state) /\
  exportedPC sample_support st' <> dex_pc_of_cursor sample_support sample_state.
Proof.
  vm_compute. repeat split; try reflexivity; try discriminate.
  intros [H _]. discriminate H.
Qed.

(** C3, amended: [EXPORT_PC] copies the current cursor into the frame's
    [exportedPCPointer] field (at [OFF_FP_DEX_PC_PTR]) only; the
    [exportedPC] field (at [OFF_FP_DEX_PC]) keeps the value it had.  It is
    [EXPORT_DEX_PC] that writes both fields: the cursor into
    [exportedPCPointer], and into [exportedPC] the logical dex pc of the
    cursor, its distance in code units from the instructions of the frame's
    code item.  (The two fields are distinct words of the frame, and the
    temporary of [EXPORT_DEX_PC] is neither rPC nor rFP.) *)
Theorem EXPORT_PC_writes_pointer_only (K : asm_support) (st : state) :
  apart (get_reg st rFP + OFF_FP_DEX_PC_PTR K) (get_reg st rFP + OFF_FP_DEX_PC K) = true ->
  (exportedPCPointer K (EXPORT_PC K st) = cursor st /\
   exportedPC K (EXPORT_PC K st) = exportedPC K st) /\
  (forall tmp, tmp <> rPC -> tmp <> rFP ->
     exportedPCPointer K (EXPORT_DEX_PC K tmp st) = cursor st /\
     exportedPC K (EXPORT_DEX_PC K tmp st) = dex_pc_of_cursor K st).
Proof.
  intros Hap. split.
  - split.
    + apply EXPORT_PC_pointer.
    + now apply EXPORT_PC_dex_pc.
  - intros tmp HPC HFP. now apply EXPORT_DEX_PC_fields.
Qed.

Lemma EXPORT_PC_writes_pointer_only_witness :
  (exportedPCPointer sample_support (EXPORT_PC sample_support sample_state)
   = cursor sample_state /\
   exportedPC sample_support (EXPORT_PC sample_support sample_state)
   = exportedPC sample_support sample_state) /\
  (forall tmp, tmp <> rPC -> tmp <> rFP ->
     exportedPCPointer sample_support (EXPORT_DEX_PC sample_support tmp sample_state)
     = cursor sample_state /\
     exportedPC sample_support (EXPORT_DEX_PC sample_support tmp sample_state)
     = dex_pc_of_cursor sample_support sample_state).
Proof.
  apply (EXPORT_PC_writes_pointer_only sample_support sample_state).
  reflexivity.
Defined.

(** C7: [EXPORT_PC] is idempotent.  Exporting twice with no cursor movement
    in between leaves [exportedPC] and [exportedPCPointer] as one export
    leaves them; indeed every register, the program counter and every byte
    of memory are the same. *)
Theorem EXPORT_PC_idempotent (K : asm_support) (st : state) :
  let once := EXPORT_PC K st in
  let twice := EXPORT_PC K (EXPORT_PC K st) in
  exportedPC K twice = exportedPC K once /\
  exportedPCPointer K twice = exportedPCPointer K once /\
  (forall r, get_reg twice r = get_reg once r) /\
  get_pc twice = get_pc once /\
  (forall x, mem twice x = mem once x).
Proof.
  cbv zeta. repeat split.
  - unfold exportedPC. rewrite !EXPORT_PC_regs.
    apply load32_ext. intros x _. apply EXPORT_PC_twice_mem.
  - unfold exportedPCPointer. rewrite !EXPORT_PC_regs.
    apply load32_ext. intros x _. apply EXPORT_PC_twice_mem.
  - apply EXPORT_PC_twice_mem.
Qed.

(** ** The register file *)

(** C9: [SET_VREG] clobbers its source operand: after [SET_VREG r, i] the
    register [r] holds 0, whatever it held and whatever the index register
    is; [SET_VREG_OBJECT] leaves its source register (every register) as it
    was. *)
Theorem SET_VREG_clobbers_source (st : state) (reg vreg tmpreg : reg) :
  get_reg (SET_VREG reg vreg st) reg = 0 /\
  get_reg (SET_VREG_OBJECT reg vreg tmpreg st) reg = get_reg st reg /\
  (forall r, get_reg (SET_VREG_OBJECT reg vreg tmpreg st) r = get_reg st r).
Proof.
  unfold SET_VREG, SET_VREG_OBJECT, seq, str, mov.
  repeat split. now regs_simpl.
Qed.

(** ** Fetching *)

Lemma FETCH_INST_cursor st : cursor (FETCH_INST st) = cursor st.
Proof. unfold cursor, FETCH_INST, ldrh. now regs_simpl. Qed.

Lemma FETCH_INST_mem st : mem (FETCH_INST st) = mem st.
Proof. reflexivity. Qed.

Lemma FETCH_INST_word st :
  get_reg (FETCH_INST st) rINST = code_unit st (cursor st) 0.
Proof.
  unfold FETCH_INST, ldrh, ea, eval_operand2, code_unit, cursor.
  regs_simpl. rewrite load16_wrap, Z.mul_0_r.
  apply wrap32_small. pose proof (load16_range (mem st) (get_reg st rPC + 0)).
  unfold modulus. change (2 ^ 32) with 4294967296. lia.
Qed.

(** [FETCH_ADVANCE_INST] moves the cursor first and reads at the new
    position: the pre-indexed [ldrh ... ]!]. *)
Lemma FETCH_ADVANCE_INST_cursor count st :
  cursor (FETCH_ADVANCE_INST count st) = wrap32 (cursor st + count * 2).
Proof.
  unfold cursor, FETCH_ADVANCE_INST, ldrh_wb, ea, eval_operand2.
  regs_simpl. apply wrap32_idem.
Qed.

Lemma FETCH_ADVANCE_INST_mem count st : mem (FETCH_ADVANCE_INST count st) = mem st.
Proof. reflexivity. Qed.

Lemma FETCH_ADVANCE_INST_word count st :
  get_reg (FETCH_ADVANCE_INST count st) rINST = code_unit st (cursor st) count.
Proof.
  unfold FETCH_ADVANCE_INST, ldrh_wb, ea, eval_operand2, code_unit, cursor.
  regs_simpl. rewrite load16_wrap, (Z.mul_comm 2 count).
  apply wrap32_small.
  pose proof (load16_range (mem st) (get_reg st rPC + count * 2)).
  unfold modulus. change (2 ^ 32) with 4294967296. lia.
Qed.

Lemma repeat_fetch_cursor n st : cursor (repeat_fetch n st) = cursor st.
Proof.
  revert st. induction n as [| n IH]; intros st; simpl.
  - reflexivity.
  - now rewrite IH, FETCH_INST_cursor.
Qed.

Lemma repeat_fetch_mem n st : mem (repeat_fetch n st) = mem st.
Proof.
  revert st. induction n as [| n IH]; intros st; simpl.
  - reflexivity.
  - now rewrite IH.
Qed.

Lemma repeat_fetch_word n st :
  get_reg (repeat_fetch (S n) st) rINST = code_unit st (cursor st) 0.
Proof.
  revert st. induction n as [| n IH]; intros st.
  - apply FETCH_INST_word.
  - change (repeat_fetch (S (S n)) st) with (repeat_fetch (S n) (FETCH_INST st)).
    rewrite IH, FETCH_INST_cursor. reflexivity.
Qed.

Lemma code_unit_wrap st base k j :
  code_unit st (wrap32 (base + k * 2)) j = code_unit st base (k + j).
Proof.
  unfold code_unit. unfold load16, load8.
  rewrite wrap32_add_l.
  replace (wrap32 (base + k * 2) + 2 * j + 1) with (wrap32 (base + k * 2) + (2 * j + 1)) by lia.
  rewrite wrap32_add_l.
  now replace (base + k * 2 + 2 * j) with (base + 2 * (k + j)) by lia;
    replace (base + k * 2 + (2 * j + 1)) with (base + 2 * (k + j) + 1) by lia.
Qed.

(** C2, as stated, fails: with the cursor at unit 0 of the stream
    [0x1234, 0x5678, 0x9ABC], [FETCH_ADVANCE_INST 1] returns [0x5678], the
    unit at the new cursor position, not [0x1234]. *)
Lemma FETCH_ADVANCE_INST_counterexample :
  code_unit sample_state (cursor sample_state) 0 = 0x1234 /\
  code_unit sample_state (cursor sample_state) 1 = 0x5678 /\
  code_unit sample_state (cursor sample_state) 2 = 0x9ABC /\
  get_reg (FETCH_ADVANCE_INST 1 sample_state) rINST = 0x5678 /\
  get_reg (FETCH_ADVANCE_INST 1 sample_state) rINST <> 0x1234.
Proof. vm_compute. repeat split; try reflexivity. discriminate. Qed.

(** C2, amended: with the cursor at unit 0 of the stream
    [0x1234, 0x5678, 0x9ABC], [FETCH_ADVANCE_INST 1] leaves the cursor at
    unit 1 and returns the unit read there, [0x5678]; every subsequent
    [FETCH_INST] returns [0x5678] again and does not move the cursor.  In
    general [FETCH_ADVANCE_INST count] moves the cursor forward by [count]
    16-bit units and returns the unit at the new position. *)
Theorem FETCH_ADVANCE_INST_then_FETCH_INST (st : state) :
  code_unit st (cursor st) 0 = 0x1234 ->
  code_unit st (cursor st) 1 = 0x5678 ->
  code_unit st (cursor st) 2 = 0x9ABC ->
  let st1 := FETCH_ADVANCE_INST 1 st in
  get_reg st1 rINST = 0x5678 /\
  cursor st1 = wrap32 (cursor st + 1 * 2) /\
  (forall n, get_reg (repeat_fetch (S n) st1) rINST = 0x5678 /\
             cursor (repeat_fetch (S n) st1) = cursor st1) /\
  (forall count,
     cursor (FETCH_ADVANCE_INST count st) = wrap32 (cursor st + count * 2) /\
     get_reg (FETCH_ADVANCE_INST count st) rINST = code_unit st (cursor st) count).
Proof.
  intros H0 H1 H2 st1. subst st1. repeat split.
  - now rewrite FETCH_ADVANCE_INST_word.
  - apply FETCH_ADVANCE_INST_cursor.
  - rewrite repeat_fetch_word, FETCH_ADVANCE_INST_cursor.
    unfold code_unit at 1. rewrite FETCH_ADVANCE_INST_mem.
    fold (code_unit st (wrap32 (cursor st + 1 * 2)) 0).
    now rewrite code_unit_wrap.
  - apply repeat_fetch_cursor.
  - apply FETCH_ADVANCE_INST_cursor.
  - apply FETCH_ADVANCE_INST_word.
Qed.

Lemma FETCH_ADVANCE_INST_then_FETCH_INST_witness :
  let st1 := FETCH_ADVANCE_INST 1 sample_state in
  get_reg st1 rINST = 0x5678 /\
  cursor st1 = wrap32 (cursor sample_state + 1 * 2) /\
  (forall n, get_reg (repeat_fetch (S n) st1) rINST = 0x5678 /\
             cursor (repeat_fetch (S n) st1) = cursor st1) /\
  (forall count,
     cursor (FETCH_ADVANCE_INST count sample_state)
     = wrap32 (cursor sample_state + count * 2) /\
     get_reg (FETCH_ADVANCE_INST count sample_state) rINST
     = code_unit sample_state (cursor sample_state) count).
Proof.
  apply (FETCH_ADVANCE_INST_then_FETCH_INST sample_state); reflexivity.
Defined.

(** ** Dispatch *)

Lemma opcode_range w : 0 <= Z.land w 255 <= 255.
Proof.
  assert (E : Z.land w 255 = w mod 2 ^ 8) by (apply (Z.land_ones w 8); lia).
  rewrite E.
  pose proof (Z.mod_pos_bound w (2 ^ 8) eq_refl) as H.
  change (2 ^ 8) with 256 in *. lia.
Qed.

Lemma opcode_of_byte b : 0 <= b <= 255 -> Z.land b 255 = b.
Proof.
  intros H. change 255 with (Z.ones 8). rewrite Z.land_ones by lia.
  apply Z.mod_small. change (2 ^ 8) with 256. lia.
Qed.

(** A word-aligned address has bits 1:0 clear: the interworking write is
    then a plain branch in ARM state. *)
Lemma aligned_bits a :
  a mod 4 = 0 -> Z.testbit a 0 = false /\ Z.testbit a 1 = false.
Proof.
  intros H. split.
  - rewrite <- (Z.mod_pow2_bits_low a 2 0) by lia.
    change (2 ^ 2) with 4. rewrite H. apply Z.bits_0.
  - rewrite <- (Z.mod_pow2_bits_low a 2 1) by lia.
    change (2 ^ 2) with 4. rewrite H. apply Z.bits_0.
Qed.

Lemma BXWritePC_aligned a st :
  a mod 4 = 0 -> BXWritePC a st = set_iset (Some InstrSet_ARM) (set_pc a st).
Proof.
  intros H. destruct (aligned_bits a H) as [H0 H1].
  unfold BXWritePC. now rewrite H0, H1.
Qed.

(** Handlers of at least 4 bytes in a word-aligned table start at
    word-aligned addresses. *)
Lemma handler_entry_aligned K base b :
  2 <= handler_size_bits K -> base mod 4 = 0 -> handler_entry K base b mod 4 = 0.
Proof.
  intros Hbits Hbase. unfold handler_entry.
  replace (handler_size_bits K) with (2 + (handler_size_bits K - 2)) by lia.
  rewrite Z.pow_add_r by lia. change (2 ^ 2) with 4.
  replace (b * (4 * 2 ^ (handler_size_bits K - 2)))
    with (b * 2 ^ (handler_size_bits K - 2) * 4) by lia.
  now rewrite Z.mod_add by lia.
Qed.

Lemma GOTO_OPCODE_BASE_branch K base reg st :
  2 <= handler_size_bits K ->
  0 <= get_reg st reg <= 255 ->
  get_reg st base mod 4 = 0 ->
  get_reg st base + 256 * 2 ^ handler_size_bits K <= modulus ->
  GOTO_OPCODE_BASE K base reg st
  = set_iset (Some InstrSet_ARM)
      (set_pc (handler_entry K (get_reg st base) (get_reg st reg)) st).
Proof.
  intros Hbits Hb Hal Hfit.
  assert (Hs : 0 < 2 ^ handler_size_bits K) by (apply Z.pow_pos_nonneg; lia).
  pose proof (get_reg_range st base) as Hbase.
  assert (E : wrap32 (get_reg st base
                      + wrap32 (Z.shiftl (get_reg st reg) (handler_size_bits K)))
              = handler_entry K (get_reg st base) (get_reg st reg)).
  { unfold handler_entry. rewrite Z.shiftl_mul_pow2 by lia.
    rewrite (wrap32_small (get_reg st reg * _)) by nia.
    apply wrap32_small. nia. }
  unfold GOTO_OPCODE_BASE, add_pc, eval_operand2. rewrite E.
  apply BXWritePC_aligned. now apply handler_entry_aligned.
Qed.

Lemma GOTO_OPCODE_BASE_pc K base reg st :
  2 <= handler_size_bits K ->
  0 <= get_reg st reg <= 255 ->
  get_reg st base mod 4 = 0 ->
  get_reg st base + 256 * 2 ^ handler_size_bits K <= modulus ->
  get_pc (GOTO_OPCODE_BASE K base reg st)
  = handler_entry K (get_reg st base) (get_reg st reg) /\
  iset (GOTO_OPCODE_BASE K base reg st) = Some InstrSet_ARM.
Proof.
  intros Hbits Hb Hal Hfit.
  rewrite GOTO_OPCODE_BASE_branch by assumption.
  split; [| reflexivity].
  assert (Hs : 0 < 2 ^ handler_size_bits K) by (apply Z.pow_pos_nonneg; lia).
  pose proof (get_reg_range st base) as Hbase.
  unfold get_pc. cbn [pc set_pc set_iset]. unfold handler_entry.
  apply wrap32_small. nia.
Qed.

Lemma dispatch_entry K reg st :
  reg <> rIBASE ->
  2 <= handler_size_bits K ->
  get_reg st rIBASE mod 4 = 0 ->
  get_reg st rIBASE + 256 * 2 ^ handler_size_bits K <= modulus ->
  get_pc (dispatch K reg st)
  = handler_entry K (get_reg st rIBASE) (Z.land (get_reg st rINST) 255) /\
  iset (dispatch K reg st) = Some InstrSet_ARM.
Proof.
  intros Hreg Hbits Hal Hfit. unfold dispatch, seq.
  change (GOTO_OPCODE K reg) with (GOTO_OPCODE_BASE K rIBASE reg).
  pose proof (opcode_range (get_reg st rINST)) as Hb.
  assert (Ho : get_reg (GET_INST_OPCODE reg st) reg = Z.land (get_reg st rINST) 255).
  { unfold GET_INST_OPCODE, and_, eval_operand2. regs_simpl.
    apply wrap32_small. unfold modulus. change (2 ^ 32) with 4294967296. lia. }
  assert (Hi : get_reg (GET_INST_OPCODE reg st) rIBASE = get_reg st rIBASE).
  { unfold GET_INST_OPCODE, and_. now regs_simpl. }
  destruct (GOTO_OPCODE_BASE_pc K rIBASE reg (GET_INST_OPCODE reg st)) as [Hpc Hset];
    rewrite ?Hi, ?Ho; try assumption.
  rewrite Hpc, Hset, Hi, Ho. now split.
Qed.

(** C4: dispatch is total over the opcode byte.  For a word-aligned table of
    256 handlers of [2 ^ handler_size_bits] bytes (at least 4) at rIBASE,
    lying inside the address space, decode and dispatch of any instruction
    word sends the program counter, in ARM state, to
    [rIBASE + (b << handler_size_bits)] where [b], between 0 and 255, is the
    low byte of the word and every byte is such an opcode; this is the start
    of handler [b] and of no other handler, and the handler lies inside the
    table; opcode [0x00] goes to the base and [0xFF] to 255 strides behind
    it, two distinct addresses. *)
Theorem dispatch_total (K : asm_support) (st : state) (reg : reg) :
  reg <> rIBASE ->
  2 <= handler_size_bits K ->
  get_reg st rIBASE mod 4 = 0 ->
  get_reg st rIBASE + 256 * 2 ^ handler_size_bits K <= modulus ->
  let base := get_reg st rIBASE in
  let stride := 2 ^ handler_size_bits K in
  let b := Z.land (get_reg st rINST) 255 in
  let target := get_pc (dispatch K reg st) in
  0 <= b <= 255 /\
  (forall b0, 0 <= b0 <= 255 -> Z.land b0 255 = b0) /\
  target = base + Z.shiftl b (handler_size_bits K) /\
  target = handler_entry K base b /\
  (base <= target /\ target + stride <= base + 256 * stride) /\
  (forall b', 0 <= b' <= 255 -> handler_entry K base b' = target -> b' = b) /\
  (b = 0x00 -> target = base) /\
  (b = 0xFF -> target = base + 255 * stride) /\
  handler_entry K base 0xFF - handler_entry K base 0x00 = 255 * stride /\
  handler_entry K base 0x00 <> handler_entry K base 0xFF /\
  iset (dispatch K reg st) = Some InstrSet_ARM /\
  target mod 4 = 0.
Proof.
  intros Hreg Hbits Hal Hfit base stride b target.
  assert (Hb : 0 <= b <= 255) by apply opcode_range.
  assert (Hs : 0 < stride) by (apply Z.pow_pos_nonneg; lia).
  assert (Hbase : 0 <= base) by apply get_reg_range.
  destruct (dispatch_entry K reg st Hreg Hbits Hal Hfit) as [Hpc Hset].
  assert (Ht : target = base + b * stride) by exact Hpc.
  assert (Ha : target mod 4 = 0).
  { subst target. rewrite Hpc. now apply handler_entry_aligned. }
  unfold handler_entry. fold stride.
  rewrite Z.shiftl_mul_pow2 by lia. fold stride.
  repeat split; try assumption; try lia; try nia.
  all: intros; now apply opcode_of_byte.
Qed.

Lemma dispatch_total_witness :
  let K := sample_support in
  let st := FETCH_INST sample_state in
  let base := get_reg st rIBASE in
  let stride := 2 ^ handler_size_bits K in
  let b := Z.land (get_reg st rINST) 255 in
  let target := get_pc (dispatch K r12 st) in
  (b = 0x34 /\ target = 0x8000 + 0x34 * 128) /\
  0 <= b <= 255 /\
  (forall b0, 0 <= b0 <= 255 -> Z.land b0 255 = b0) /\
  target = base + Z.shiftl b (handler_size_bits K) /\
  target = handler_entry K base b /\
  (base <= target /\ target + stride <= base + 256 * stride) /\
  (forall b', 0 <= b' <= 255 -> handler_entry K base b' = target -> b' = b) /\
  (b = 0x00 -> target = base) /\
  (b = 0xFF -> target = base + 255 * stride) /\
  handler_entry K base 0xFF - handler_entry K base 0x00 = 255 * stride /\
  handler_entry K base 0x00 <> handler_entry K base 0xFF /\
  iset (dispatch K r12 st) = Some InstrSet_ARM /\
  target mod 4 = 0.
Proof.
  split.
  - split; reflexivity.
  - apply (dispatch_total sample_support (FETCH_INST sample_state) r12).
    + discriminate.
    + vm_compute. discriminate.
    + reflexivity.
    + vm_compute. discriminate.
Defined.

(** ** Slots of the register file *)

Lemma shiftl2 x : Z.shiftl x 2 = x * 4.
Proof. now rewrite Z.shiftl_mul_pow2 by lia. Qed.

Lemma ea_vreg st vreg :
  ea st rFP (Lsl vreg 2) = vreg_addr st (get_reg st vreg).
Proof.
  unfold ea, vreg_addr, eval_operand2.
  now rewrite (wrap32_small (get_reg st vreg)) by apply get_reg_range.
Qed.

Lemma ea_shadow st vreg :
  ea st rREFS (Lsl vreg 2) = shadow_addr st (get_reg st vreg).
Proof.
  unfold ea, shadow_addr, eval_operand2.
  now rewrite (wrap32_small (get_reg st vreg)) by apply get_reg_range.
Qed.

Lemma vreg_addr_regs st st' i :
  get_reg st' rFP = get_reg st rFP -> vreg_addr st' i = vreg_addr st i.
Proof. unfold vreg_addr. now intros ->. Qed.

Lemma shadow_addr_regs st st' i :
  get_reg st' rREFS = get_reg st rREFS -> shadow_addr st' i = shadow_addr st i.
Proof. unfold shadow_addr. now intros ->. Qed.

(** The shadow words of two neighbouring slots share no byte, wherever the
    slots are. *)
Lemma shadow_next_apart st i :
  apart (shadow_addr st (i + 1)) (shadow_addr st i) = true.
Proof.
  unfold apart, shadow_addr. rewrite !shiftl2.
  pose proof (get_reg_range st rREFS).
  apply andb_true_iff; split; apply Z.leb_le; wrap_lia.
Qed.

Lemma register_file_spec n st :
  register_file n st = true ->
  0 <= n /\
  get_reg st rFP + 4 * n <= modulus /\
  get_reg st rREFS + 4 * n <= modulus /\
  (get_reg st rFP + 4 * n <= get_reg st rREFS \/
   get_reg st rREFS + 4 * n <= get_reg st rFP).
Proof.
  unfold register_file. intros H.
  repeat (apply andb_true_iff in H; destruct H as [H ?]).
  match goal with E : (_ || _) = true |- _ => apply orb_true_iff in E; destruct E as [E | E] end;
    repeat match goal with E : (_ <=? _) = true |- _ => apply Z.leb_le in E end;
    lia.
Qed.

Lemma register_file_regs n st st' :
  get_reg st' rFP = get_reg st rFP ->
  get_reg st' rREFS = get_reg st rREFS ->
  register_file n st' = register_file n st.
Proof. unfold register_file. now intros -> ->. Qed.

Section InFile.

Variables (n : Z) (st : state).
Hypothesis Hrf : register_file n st = true.

Lemma vreg_addr_in_file i :
  0 <= i < n -> vreg_addr st i = get_reg st rFP + 4 * i.
Proof.
  intros Hi. destruct (register_file_spec n st Hrf) as (Hn & Hv & Hs & Hd).
  pose proof (get_reg_range st rFP).
  unfold vreg_addr. rewrite shiftl2.
  rewrite (wrap32_small i) by (unfold modulus in *; lia).
  rewrite (wrap32_small (i * 4)) by (unfold modulus in *; lia).
  rewrite wrap32_small by (unfold modulus in *; lia). lia.
Qed.

Lemma shadow_addr_in_file i :
  0 <= i < n -> shadow_addr st i = get_reg st rREFS + 4 * i.
Proof.
  intros Hi. destruct (register_file_spec n st Hrf) as (Hn & Hv & Hs & Hd).
  pose proof (get_reg_range st rREFS).
  unfold shadow_addr. rewrite shiftl2.
  rewrite (wrap32_small i) by (unfold modulus in *; lia).
  rewrite (wrap32_small (i * 4)) by (unfold modulus in *; lia).
  rewrite wrap32_small by (unfold modulus in *; lia). lia.
Qed.

Lemma apart_lia a c :
  0 <= a -> 0 <= c -> a + 4 <= modulus -> c + 4 <= modulus ->
  a + 4 <= c \/ c + 4 <= a -> apart a c = true.
Proof.
  intros. unfold apart. apply andb_true_iff; split; apply Z.leb_le; wrap_lia.
Qed.

Lemma shadow_shadow_apart i j :
  0 <= i < n -> 0 <= j < n -> i <> j ->
  apart (shadow_addr st i) (shadow_addr st j) = true.
Proof.
  intros Hi Hj Hij. destruct (register_file_spec n st Hrf) as (Hn & Hv & Hs & Hd).
  pose proof (get_reg_range st rREFS).
  rewrite !shadow_addr_in_file by assumption.
  apply apart_lia; lia.
Qed.

Lemma vreg_vreg_apart i j :
  0 <= i < n -> 0 <= j < n -> i <> j ->
  apart (vreg_addr st i) (vreg_addr st j) = true.
Proof.
  intros Hi Hj Hij. destruct (register_file_spec n st Hrf) as (Hn & Hv & Hs & Hd).
  pose proof (get_reg_range st rFP).
  rewrite !vreg_addr_in_file by assumption.
  apply apart_lia; lia.
Qed.

Lemma shadow_vreg_apart i j :
  0 <= i < n -> 0 <= j < n ->
  apart (shadow_addr st i) (vreg_addr st j) = true.
Proof.
  intros Hi Hj. destruct (register_file_spec n st Hrf) as (Hn & Hv & Hs & Hd).
  pose proof (get_reg_range st rFP). pose proof (get_reg_range st rREFS).
  rewrite shadow_addr_in_file, vreg_addr_in_file by assumption.
  apply apart_lia; lia.
Qed.

Lemma vreg_shadow_apart i j :
  0 <= i < n -> 0 <= j < n ->
  apart (vreg_addr st i) (shadow_addr st j) = true.
Proof. intros Hi Hj. apply apart_sym. now apply shadow_vreg_apart. Qed.

End InFile.

(** ** Effect of the register-file macros *)

Lemma SET_VREG_SHADOW_mem reg vreg st :
  mem (SET_VREG_SHADOW reg vreg st) =
  store32 (mem st) (shadow_addr st (get_reg st vreg)) (get_reg st reg).
Proof. unfold SET_VREG_SHADOW. now rewrite str_mem, ea_shadow. Qed.

Lemma CLEAR_SHADOW_PAIR_regs vreg tmp1 tmp2 st r :
  r <> tmp1 -> r <> tmp2 ->
  get_reg (CLEAR_SHADOW_PAIR vreg tmp1 tmp2 st) r = get_reg st r.
Proof.
  intros H1 H2. unfold CLEAR_SHADOW_PAIR, SET_VREG_SHADOW, seq, str, mov, add.
  now regs_simpl.
Qed.

Lemma CLEAR_SHADOW_PAIR_mem vreg tmp1 tmp2 st :
  tmp1 <> vreg -> tmp2 <> vreg -> tmp1 <> tmp2 ->
  tmp1 <> rREFS -> tmp2 <> rREFS ->
  let i := get_reg st vreg in
  mem (CLEAR_SHADOW_PAIR vreg tmp1 tmp2 st) =
  store32 (store32 (mem st) (shadow_addr st i) 0) (shadow_addr st (i + 1)) 0.
Proof.
  intros H1 H2 H12 HR1 HR2 i. subst i.
  unfold CLEAR_SHADOW_PAIR, SET_VREG_SHADOW, seq, str, mov, add, ea,
    eval_operand2, shadow_addr.
  state_simpl.
  rewrite (wrap32_small (get_reg st vreg)) by apply get_reg_range.
  reflexivity.
Qed.

(** C5: [CLEAR_SHADOW_PAIR] leaves both shadow slots null.  Whatever the
    shadow slots held and whatever index [i] the index register holds,
    after the macro (with two temporaries distinct from each other, from the
    index register and from rREFS) [refShadow[i]] and [refShadow[i+1]] are
    both 0. *)
Theorem CLEAR_SHADOW_PAIR_clears_both (st : state) (vreg tmp1 tmp2 : reg) :
  tmp1 <> vreg -> tmp2 <> vreg -> tmp1 <> tmp2 ->
  tmp1 <> rREFS -> tmp2 <> rREFS ->
  let i := get_reg st vreg in
  let st' := CLEAR_SHADOW_PAIR vreg tmp1 tmp2 st in
  refShadow st' i = 0 /\ refShadow st' (i + 1) = 0.
Proof.
  intros H1 H2 H12 HR1 HR2 i st'. subst st'.
  unfold refShadow.
  rewrite !(shadow_addr_regs st (CLEAR_SHADOW_PAIR vreg tmp1 tmp2 st))
    by (apply CLEAR_SHADOW_PAIR_regs; congruence).
  rewrite CLEAR_SHADOW_PAIR_mem by assumption. fold i.
  split.
  - rewrite load32_store32_apart by apply shadow_next_apart.
    apply load32_store32_same.
  - apply load32_store32_same.
Qed.

(** C10: [CLEAR_SHADOW_PAIR] modifies only the two shadow slots.  On a
    register file of [n] slots, for a pair [i], [i+1] inside the file, every
    slot of the values array and every shadow slot other than [i] and [i+1]
    is left unchanged; in memory, every byte outside the two shadow words is
    unchanged, and every register but the two temporaries keeps its
    value. *)
Theorem CLEAR_SHADOW_PAIR_only_pair (n : Z) (st : state) (vreg tmp1 tmp2 : reg) :
  register_file n st = true ->
  tmp1 <> vreg -> tmp2 <> vreg -> tmp1 <> tmp2 ->
  tmp1 <> rREFS -> tmp2 <> rREFS -> tmp1 <> rFP -> tmp2 <> rFP ->
  let i := get_reg st vreg in
  i + 1 < n ->
  let st' := CLEAR_SHADOW_PAIR vreg tmp1 tmp2 st in
  (forall j, 0 <= j < n -> values st' j = values st j) /\
  (forall j, 0 <= j < n -> j <> i -> j <> i + 1 -> refShadow st' j = refShadow st j) /\
  (forall x, in_word (shadow_addr st i) x = false ->
             in_word (shadow_addr st (i + 1)) x = false ->
             mem st' x = mem st x) /\
  (forall r, r <> tmp1 -> r <> tmp2 -> get_reg st' r = get_reg st r).
Proof.
  intros Hrf H1 H2 H12 HR1 HR2 HF1 HF2 i Hi st'. subst st'.
  assert (Hi0 : 0 <= i) by apply get_reg_range.
  repeat split.
  - intros j Hj. unfold values.
    rewrite (vreg_addr_regs st) by (apply CLEAR_SHADOW_PAIR_regs; congruence).
    rewrite CLEAR_SHADOW_PAIR_mem by assumption. fold i.
    rewrite !load32_store32_apart; [reflexivity | |];
      apply (shadow_vreg_apart n st Hrf); lia.
  - intros j Hj Hji Hji1. unfold refShadow.
    rewrite (shadow_addr_regs st) by (apply CLEAR_SHADOW_PAIR_regs; congruence).
    rewrite CLEAR_SHADOW_PAIR_mem by assumption. fold i.
    rewrite !load32_store32_apart; [reflexivity | |];
      apply (shadow_shadow_apart n st Hrf); lia.
  - intros x Hx Hx1.
    rewrite CLEAR_SHADOW_PAIR_mem by assumption. fold i.
    now rewrite !store32_outside.
  - intros r Hr1 Hr2. now apply CLEAR_SHADOW_PAIR_regs.
Qed.

Lemma GET_VREG_value reg vreg st :
  get_reg (GET_VREG reg vreg st) reg = values st (get_reg st vreg).
Proof.
  unfold GET_VREG, ldr, values. rewrite ea_vreg. regs_simpl.
  apply wrap32_small, load32_range.
Qed.

Lemma SET_VREG_regs reg vreg st r :
  r <> reg -> get_reg (SET_VREG reg vreg st) r = get_reg st r.
Proof. intros H. unfold SET_VREG, seq, str, mov. now regs_simpl. Qed.

Lemma SET_VREG_mem reg vreg st :
  reg <> vreg -> reg <> rREFS ->
  let i := get_reg st vreg in
  mem (SET_VREG reg vreg st) =
  store32 (store32 (mem st) (vreg_addr st i) (get_reg st reg)) (shadow_addr st i) 0.
Proof.
  intros Hv HR i. subst i.
  unfold SET_VREG, seq, str, mov, ea, eval_operand2, vreg_addr, shadow_addr.
  state_simpl.
  rewrite (wrap32_small (get_reg st vreg)) by apply get_reg_range.
  reflexivity.
Qed.

Lemma SET_VREG_OBJECT_regs reg vreg tmpreg st r :
  get_reg (SET_VREG_OBJECT reg vreg tmpreg st) r = get_reg st r.
Proof. reflexivity. Qed.

Lemma SET_VREG_OBJECT_mem reg vreg tmpreg st :
  let i := get_reg st vreg in
  mem (SET_VREG_OBJECT reg vreg tmpreg st) =
  store32 (store32 (mem st) (vreg_addr st i) (get_reg st reg))
    (shadow_addr st i) (get_reg st reg).
Proof.
  intros i. subst i.
  unfold SET_VREG_OBJECT, seq, str, ea, eval_operand2, vreg_addr, shadow_addr.
  state_simpl.
  rewrite (wrap32_small (get_reg st vreg)) by apply get_reg_range.
  reflexivity.
Qed.

(** *** One macro, slot by slot *)

Section OneMacro.

Variables (n : Z) (st : state).
Hypothesis Hrf : register_file n st = true.

Lemma SET_VREG_slots reg vreg j :
  reg <> vreg -> reg <> rREFS -> reg <> rFP ->
  let i := get_reg st vreg in
  i < n -> 0 <= j < n ->
  values (SET_VREG reg vreg st) j = (if j =? i then get_reg st reg else values st j) /\
  refShadow (SET_VREG reg vreg st) j = (if j =? i then 0 else refShadow st j).
Proof.
  intros Hv HR HF i Hi Hj.
  assert (Hi0 : 0 <= i) by apply get_reg_range.
  unfold values, refShadow.
  rewrite (vreg_addr_regs st), (shadow_addr_regs st)
    by (apply SET_VREG_regs; congruence).
  rewrite SET_VREG_mem by assumption. fold i.
  destruct (Z.eqb_spec j i) as [-> | Hji]; split.
  - rewrite load32_store32_apart by (apply (shadow_vreg_apart n st Hrf); lia).
    rewrite load32_store32_same. apply wrap32_small, get_reg_range.
  - apply load32_store32_same.
  - rewrite load32_store32_apart by (apply (shadow_vreg_apart n st Hrf); lia).
    apply load32_store32_apart, (vreg_vreg_apart n st Hrf); lia.
  - rewrite load32_store32_apart by (apply (shadow_shadow_apart n st Hrf); lia).
    apply load32_store32_apart, (vreg_shadow_apart n st Hrf); lia.
Qed.

Lemma SET_VREG_OBJECT_slots reg vreg tmpreg j :
  let i := get_reg st vreg in
  i < n -> 0 <= j < n ->
  values (SET_VREG_OBJECT reg vreg tmpreg st) j
  = (if j =? i then get_reg st reg else values st j) /\
  refShadow (SET_VREG_OBJECT reg vreg tmpreg st) j
  = (if j =? i then get_reg st reg else refShadow st j).
Proof.
  intros i Hi Hj.
  assert (Hi0 : 0 <= i) by apply get_reg_range.
  unfold values, refShadow.
  rewrite (vreg_addr_regs st), (shadow_addr_regs st)
    by apply SET_VREG_OBJECT_regs.
  rewrite SET_VREG_OBJECT_mem. fold i.
  destruct (Z.eqb_spec j i) as [-> | Hji]; split.
  - rewrite load32_store32_apart by (apply (shadow_vreg_apart n st Hrf); lia).
    rewrite load32_store32_same. apply wrap32_small, get_reg_range.
  - rewrite load32_store32_same. apply wrap32_small, get_reg_range.
  - rewrite load32_store32_apart by (apply (shadow_vreg_apart n st Hrf); lia).
    apply load32_store32_apart, (vreg_vreg_apart n st Hrf); lia.
  - rewrite load32_store32_apart by (apply (shadow_shadow_apart n st Hrf); lia).
    apply load32_store32_apart, (vreg_shadow_apart n st Hrf); lia.
Qed.

Lemma CLEAR_SHADOW_PAIR_slots vreg tmp1 tmp2 j :
  tmp1 <> vreg -> tmp2 <> vreg -> tmp1 <> tmp2 ->
  tmp1 <> rREFS -> tmp2 <> rREFS ->
  let i := get_reg st vreg in
  i + 1 < n -> 0 <= j < n ->
  refShadow (CLEAR_SHADOW_PAIR vreg tmp1 tmp2 st) j
  = (if (i =? j) || (i + 1 =? j) then 0 else refShadow st j).
Proof.
  intros H1 H2 H12 HR1 HR2 i Hi Hj.
  assert (Hi0 : 0 <= i) by apply get_reg_range.
  unfold refShadow.
  rewrite (shadow_addr_regs st) by (apply CLEAR_SHADOW_PAIR_regs; congruence).
  rewrite CLEAR_SHADOW_PAIR_mem by assumption. fold i.
  destruct (Z.eqb_spec i j) as [<- | Hji]; simpl.
  - rewrite load32_store32_apart by apply shadow_next_apart.
    apply load32_store32_same.
  - destruct (Z.eqb_spec (i + 1) j) as [<- | Hji1].
    + apply load32_store32_same.
    + rewrite !load32_store32_apart; [reflexivity | |];
        apply (shadow_shadow_apart n st Hrf); lia.
Qed.

End OneMacro.

(** *** One call *)

Lemma scratch_spec r : scratch r = true -> r <> rFP /\ r <> rREFS.
Proof.
  unfold scratch. intros H. apply andb_true_iff in H. destruct H as [H1 H2].
  apply negb_true_iff in H1, H2. split; now apply reg_eqb_false.
Qed.

Lemma negb_reg_eqb a b : negb (reg_eqb a b) = true -> a <> b.
Proof. intros H. apply negb_true_iff in H. now apply reg_eqb_false. Qed.

Lemma word32_spec v : word32 v = true -> 0 <= v < modulus.
Proof.
  unfold word32. intros H. apply andb_true_iff in H. destruct H as [H1 H2].
  apply Z.leb_le in H1. apply Z.ltb_lt in H2. lia.
Qed.

(** Splits a [call_ok] hypothesis into its facts. *)
Ltac ok_facts H :=
  simpl in H;
  repeat (apply andb_true_iff in H; let H' := fresh "Hok" in destruct H as [H H']);
  repeat match goal with
    | E : scratch _ = true |- _ => apply scratch_spec in E; destruct E
    | E : negb (reg_eqb _ _) = true |- _ => apply negb_reg_eqb in E
    | E : word32 _ = true |- _ => apply word32_spec in E
    | E : (_ <=? _) = true |- _ => apply Z.leb_le in E
    | E : (_ <? _) = true |- _ => apply Z.ltb_lt in E
    end.

(** States that agree on memory and on the two frame registers show the
    same register file. *)
Lemma same_file st st' :
  mem st' = mem st ->
  get_reg st' rFP = get_reg st rFP ->
  get_reg st' rREFS = get_reg st rREFS ->
  (forall j, values st' j = values st j) /\
  (forall j, refShadow st' j = refShadow st j) /\
  (forall n, register_file n st' = register_file n st).
Proof.
  intros Hm HF HR. repeat split; intros.
  - unfold values. now rewrite Hm, (vreg_addr_regs st st').
  - unfold refShadow. now rewrite Hm, (shadow_addr_regs st st').
  - now apply register_file_regs.
Qed.

Lemma file_bound n st i :
  register_file n st = true -> 0 <= i < n -> wrap32 i = i.
Proof.
  intros Hrf Hi. destruct (register_file_spec n st Hrf) as (Hn & Hv & Hs & Hd).
  pose proof (get_reg_range st rFP).
  apply wrap32_small. lia.
Qed.

Section OneCall.

Variables (n : Z) (st : state) (c : rf_call).
Hypothesis Hrf : register_file n st = true.
Hypothesis Hok : call_ok n c = true.

Lemma run_call_frame_regs :
  get_reg (run_call c st) rFP = get_reg st rFP /\
  get_reg (run_call c st) rREFS = get_reg st rREFS.
Proof.
  destruct c as [reg vreg i v | reg vreg tmpreg i ref | vreg tmp1 tmp2 i];
    ok_facts Hok;
    unfold run_call, seq, SET_VREG, SET_VREG_OBJECT, CLEAR_SHADOW_PAIR,
      SET_VREG_SHADOW, seq, str, mov, add;
    split; now regs_simpl.
Qed.

Lemma run_call_file : register_file n (run_call c st) = true.
Proof.
  destruct run_call_frame_regs as [HF HR].
  now rewrite (register_file_regs n st).
Qed.

Lemma run_call_slots j :
  0 <= j < n ->
  refShadow (run_call c st) j
  = match write_of c j with
    | Some w => shadow_after w
    | None => refShadow st j
    end /\
  values (run_call c st) j
  = match write_of c j with
    | Some (WPrimitive v) => v
    | Some (WReference ref) => ref
    | _ => values st j
    end.
Proof.
  intros Hj.
  destruct c as [reg vreg i v | reg vreg tmpreg i ref | vreg tmp1 tmp2 i];
    ok_facts Hok; unfold run_call, seq, write_of.
  - set (st0 := mov vreg (Imm i) (mov reg (Imm v) st)).
    assert (Hi : get_reg st0 vreg = i).
    { unfold st0, mov, eval_operand2. regs_simpl.
      apply (file_bound n st); [assumption | lia]. }
    assert (Hv : get_reg st0 reg = v).
    { unfold st0, mov, eval_operand2. regs_simpl. now apply wrap32_small. }
    destruct (same_file st st0) as (Sv & Ss & Sf);
      [reflexivity | unfold st0, mov; now regs_simpl .. |].
    assert (Hrf0 : register_file n st0 = true) by now rewrite Sf.
    destruct (SET_VREG_slots n st0 Hrf0 reg vreg j) as [Ev Es];
      try assumption; try congruence; try lia.
    rewrite Ev, Es, Hi, Hv, Sv, Ss, (Z.eqb_sym j i).
    now destruct (i =? j).
  - set (st0 := mov vreg (Imm i) (mov reg (Imm ref) st)).
    assert (Hi : get_reg st0 vreg = i).
    { unfold st0, mov, eval_operand2. regs_simpl.
      apply (file_bound n st); [assumption | lia]. }
    assert (Hv : get_reg st0 reg = ref).
    { unfold st0, mov, eval_operand2. regs_simpl. now apply wrap32_small. }
    destruct (same_file st st0) as (Sv & Ss & Sf);
      [reflexivity | unfold st0, mov; now regs_simpl .. |].
    assert (Hrf0 : register_file n st0 = true) by now rewrite Sf.
    destruct (SET_VREG_OBJECT_slots n st0 Hrf0 reg vreg tmpreg j) as [Ev Es];
      try assumption; try lia.
    rewrite Ev, Es, Hi, Hv, Sv, Ss, (Z.eqb_sym j i).
    now destruct (i =? j).
  - set (st0 := mov vreg (Imm i) st).
    assert (Hi : get_reg st0 vreg = i).
    { unfold st0, mov, eval_operand2. regs_simpl.
      apply (file_bound n st); [assumption | lia]. }
    destruct (same_file st st0) as (Sv & Ss & Sf);
      [reflexivity | unfold st0, mov; now regs_simpl .. |].
    assert (Hrf0 : register_file n st0 = true) by now rewrite Sf.
    split.
    + rewrite (CLEAR_SHADOW_PAIR_slots n st0 Hrf0 vreg tmp1 tmp2 j);
        try assumption; try congruence; try lia.
      rewrite Hi, Ss. now destruct ((i =? j) || (i + 1 =? j)).
    + unfold values.
      rewrite (vreg_addr_regs st0)
        by (apply CLEAR_SHADOW_PAIR_regs; congruence).
      rewrite CLEAR_SHADOW_PAIR_mem by congruence.
      rewrite Hi.
      assert (E : load32 (mem st0) (vreg_addr st0 j) = values st j)
        by (rewrite <- Sv; reflexivity).
      rewrite !load32_store32_apart;
        [ now destruct ((i =? j) || (i + 1 =? j)) | | ];
        apply (shadow_vreg_apart n st0 Hrf0); lia.
Qed.

End OneCall.

(** *** Sequences of calls *)

Lemma run_calls_shadow n cs : forall st i,
  register_file n st = true ->
  forallb (call_ok n) cs = true ->
  0 <= i < n ->
  refShadow (run_calls cs st) i
  = match last_write cs i with
    | Some w => shadow_after w
    | None => refShadow st i
    end.
Proof.
  induction cs as [| c cs IH]; intros st i Hrf Hok Hi; simpl.
  - reflexivity.
  - simpl in Hok. apply andb_true_iff in Hok. destruct Hok as [Hc Hcs].
    rewrite IH by (try assumption; now apply run_call_file).
    destruct (last_write cs i) as [w |]; [reflexivity |].
    now destruct (run_call_slots n st c Hrf Hc i Hi) as [-> _].
Qed.

(** C1, as stated, fails: on the sample frame of 4 registers, after the one
    call [setReference(2, null)] the most recent write to slot 2 is a
    [setReference], yet [refShadow[2]] is null. *)
Lemma shadow_iff_setReference_counterexample :
  let cs := [setReference r0 r1 r2 2 0] in
  register_file 4 sample_state = true /\
  forallb (call_ok 4) cs = true /\
  last_write_is_setReference cs 2 = true /\
  refShadow (run_calls cs sample_state) 2 = 0 /\
  ~ (refShadow (run_calls cs sample_state) 2 <> 0
     <-> last_write_is_setReference cs 2 = true).
Proof.
  vm_compute. repeat split; try reflexivity.
  intros [_ H]. now apply H.
Qed.

(** C1, amended: on a register file of [n] slots, after any sequence of
    [setPrimitive], [setReference] and [clearShadowPair] calls on slots of
    the file, the shadow slot of a slot [i] that some call wrote is non-null
    if and only if the most recent write to slot [i] was a [setReference] of
    a non-null reference, and then it holds that reference; a slot no call
    wrote keeps its shadow.  A [setPrimitive] leaves the value in the value
    slot and null in the shadow slot; a [setReference] leaves the same value
    in both. *)
Theorem shadow_iff_setReference_non_null
  (n : Z) (st : state) (cs : list rf_call) (i : Z) :
  register_file n st = true ->
  forallb (call_ok n) cs = true ->
  0 <= i < n ->
  refShadow (run_calls cs st) i
  = match last_write cs i with
    | Some w => shadow_after w
    | None => refShadow st i
    end /\
  (last_write cs i <> None ->
   (refShadow (run_calls cs st) i <> 0 <->
    exists ref, last_write cs i = Some (WReference ref) /\ ref <> 0)) /\
  (forall reg vreg v, call_ok n (setPrimitive reg vreg i v) = true ->
     values (run_call (setPrimitive reg vreg i v) st) i = v /\
     refShadow (run_call (setPrimitive reg vreg i v) st) i = 0) /\
  (forall reg vreg tmpreg ref, call_ok n (setReference reg vreg tmpreg i ref) = true ->
     values (run_call (setReference reg vreg tmpreg i ref) st) i = ref /\
     refShadow (run_call (setReference reg vreg tmpreg i ref) st) i = ref).
Proof.
  intros Hrf Hok Hi.
  pose proof (run_calls_shadow n cs st i Hrf Hok Hi) as Hs.
  split; [exact Hs |]. split; [| split].
  - intros Hw. rewrite Hs.
    destruct (last_write cs i) as [[v | ref | ] |]; simpl.
    + split; [congruence |]. intros (r & E & _). discriminate E.
    + split.
      * intros Hr. now exists ref.
      * intros (r & E & Hr). now injection E as ->.
    + split; [congruence |]. intros (r & E & _). discriminate E.
    + congruence.
  - intros reg vreg v Hc.
    destruct (run_call_slots n st _ Hrf Hc i Hi) as [Es Ev].
    simpl in Es, Ev. rewrite Z.eqb_refl in Es, Ev. now split.
  - intros reg vreg tmpreg ref Hc.
    destruct (run_call_slots n st _ Hrf Hc i Hi) as [Es Ev].
    simpl in Es, Ev. rewrite Z.eqb_refl in Es, Ev. now split.
Qed.

Lemma shadow_iff_setReference_non_null_witness :
  let cs := [setReference r0 r1 r2 2 objA; setPrimitive r0 r1 1 5;
             setReference r0 r1 r2 1 objA; clearShadowPair r1 r2 r3 2] in
  let st := sample_state in
  refShadow (run_calls cs st) 1
  = match last_write cs 1 with
    | Some w => shadow_after w
    | None => refShadow st 1
    end /\
  (last_write cs 1 <> None ->
   (refShadow (run_calls cs st) 1 <> 0 <->
    exists ref, last_write cs 1 = Some (WReference ref) /\ ref <> 0)) /\
  (forall reg vreg v, call_ok 4 (setPrimitive reg vreg 1 v) = true ->
     values (run_call (setPrimitive reg vreg 1 v) st) 1 = v /\
     refShadow (run_call (setPrimitive reg vreg 1 v) st) 1 = 0) /\
  (forall reg vreg tmpreg ref, call_ok 4 (setReference reg vreg tmpreg 1 ref) = true ->
     values (run_call (setReference reg vreg tmpreg 1 ref) st) 1 = ref /\
     refShadow (run_call (setReference reg vreg tmpreg 1 ref) st) 1 = ref).
Proof.
  apply (shadow_iff_setReference_non_null 4 sample_state
           [setReference r0 r1 r2 2 objA; setPrimitive r0 r1 1 5;
            setReference r0 r1 r2 1 objA; clearShadowPair r1 r2 r3 2] 1).
  - reflexivity.
  - reflexivity.
  - lia.
Defined.

Lemma get_call_value reg vreg i st :
  vreg <> rFP -> 0 <= i < modulus ->
  get_reg (get_call reg vreg i st) reg = values st i.
Proof.
  intros HF Hi. unfold get_call, seq. rewrite GET_VREG_value.
  set (st0 := mov vreg (Imm i) st).
  assert (E : get_reg st0 vreg = i).
  { unfold st0, mov, eval_operand2. regs_simpl. now apply wrap32_small. }
  rewrite E. unfold values.
  rewrite (vreg_addr_regs st st0) by (unfold st0, mov; now regs_simpl).
  reflexivity.
Qed.

(** C6: on a frame with 4 registers, after [setReference(2, objA)] followed
    by [setPrimitive(2, 5)], [get(2)] returns 5 and [refShadow[2]] is null:
    the primitive write replaces the reference in the value slot and in the
    shadow slot. *)
Theorem primitive_overwrites_reference (st : state) (obj : Z) :
  register_file 4 st = true ->
  word32 obj = true ->
  let st' := run_calls [setReference r0 r1 r2 2 obj; setPrimitive r0 r1 2 5] st in
  get_reg (get_call r3 r1 2 st') r3 = 5 /\
  values st' 2 = 5 /\
  refShadow st' 2 = 0 /\
  refShadow (run_call (setReference r0 r1 r2 2 obj) st) 2 = obj.
Proof.
  intros Hrf Hobj st'. subst st'. simpl run_calls.
  assert (Hc1 : call_ok 4 (setReference r0 r1 r2 2 obj) = true)
    by (simpl; now rewrite Hobj).
  assert (Hc2 : call_ok 4 (setPrimitive r0 r1 2 5) = true) by reflexivity.
  pose proof (run_call_file 4 st _ Hrf Hc1) as Hrf1.
  destruct (run_call_slots 4 st _ Hrf Hc1 2 ltac:(lia)) as [Es1 _].
  destruct (run_call_slots 4 _ _ Hrf1 Hc2 2 ltac:(lia)) as [Es2 Ev2].
  simpl in Es1, Es2, Ev2.
  rewrite get_call_value by (try discriminate; unfold modulus; simpl; lia).
  now repeat split.
Qed.

Lemma primitive_overwrites_reference_witness :
  let st' :=
    run_calls [setReference r0 r1 r2 2 objA; setPrimitive r0 r1 2 5] sample_state in
  get_reg (get_call r3 r1 2 st') r3 = 5 /\
  values st' 2 = 5 /\
  refShadow st' 2 = 0 /\
  refShadow (run_call (setReference r0 r1 r2 2 objA) sample_state) 2 = objA.
Proof.
  apply (primitive_overwrites_reference sample_state objA); reflexivity.
Defined.

Lemma CLEAR_SHADOW_PAIR_clears_both_witness :
  (refShadow sample_pair_state 2 = objA /\ refShadow sample_pair_state 3 = objA) /\
  let i := get_reg sample_pair_state r1 in
  let st' := CLEAR_SHADOW_PAIR r1 r2 r3 sample_pair_state in
  refShadow st' i = 0 /\ refShadow st' (i + 1) = 0.
Proof.
  split.
  - split; reflexivity.
  - apply (CLEAR_SHADOW_PAIR_clears_both sample_pair_state r1 r2 r3);
      discriminate.
Defined.

Lemma CLEAR_SHADOW_PAIR_only_pair_witness :
  let st := sample_pair_state in
  let i := get_reg st r1 in
  let st' := CLEAR_SHADOW_PAIR r1 r2 r3 st in
  (forall j, 0 <= j < 4 -> values st' j = values st j) /\
  (forall j, 0 <= j < 4 -> j <> i -> j <> i + 1 -> refShadow st' j = refShadow st j) /\
  (forall x, in_word (shadow_addr st i) x = false ->
             in_word (shadow_addr st (i + 1)) x = false ->
             mem st' x = mem st x) /\
  (forall r, r <> r2 -> r <> r3 -> get_reg st' r = get_reg st r).
Proof.
  apply (CLEAR_SHADOW_PAIR_only_pair 4 sample_pair_state r1 r2 r3);
    try discriminate; try reflexivity.
Defined.

(** ** The locked dump *)

Section LockedDump.

Import Dumpable.

Variables World Thread ostream T : Type.
Variable Thread_Current : World -> Thread.
Variable AssertSharedHeld : Thread -> World -> option World.
Variable Dump : T -> ostream -> World -> option World.

Local Abbreviation shl := (operator_shl World Thread ostream T
                         Thread_Current AssertSharedHeld Dump).
Local Abbreviation Asserted := (CallAssertSharedHeld Thread ostream T).
Local Abbreviation Dumped := (CallDump Thread ostream T).

Lemma operator_shl_unfold os rhs w log :
  shl os rhs w log =
  match AssertSharedHeld (Thread_Current w) w with
  | None => (None, log ++ [Asserted (Thread_Current w)])
  | Some w1 =>
      (match Dump rhs os w1 with Some w2 => Some (os, w2) | None => None end,
       (log ++ [Asserted (Thread_Current w)]) ++ [Dumped rhs os])
  end.
Proof.
  unfold operator_shl, bind, current, mutator_lock_AssertSharedHeld,
    rhs_Dump, invoke, ret.
  destruct (AssertSharedHeld (Thread_Current w) w) as [w1 |]; [| reflexivity].
  now destruct (Dump rhs os w1).
Qed.

(** C8: the stream operator of a [MutatorLockedDumpable] asserts the
    shared hold of the mutator lock before it reads.  Its first call is
    [AssertSharedHeld] on the current thread; [Dump] is called on the
    wrapped object, with the stream given, only after that assertion has
    returned, in the state the assertion left, and the operator then
    returns the stream; when the assertion does not return, [Dump] is
    never called. *)
Theorem operator_shl_asserts_then_dumps (os : ostream) (rhs : T) (w : World) :
  let self := Thread_Current w in
  let run := shl os rhs w [] in
  run =
  match AssertSharedHeld self w with
  | None => (None, [Asserted self])
  | Some w1 =>
      (match Dump rhs os w1 with Some w2 => Some (os, w2) | None => None end,
       [Asserted self; Dumped rhs os])
  end /\
  hd_error (snd run) = Some (Asserted self) /\
  (forall pre post c, snd run = pre ++ c :: post -> is_dump Thread ostream T c = true ->
     pre = [Asserted self] /\ c = Dumped rhs os /\ post = [] /\
     exists w1, AssertSharedHeld self w = Some w1).
Proof.
  intros self run. subst run. rewrite operator_shl_unfold. fold self.
  destruct (AssertSharedHeld self w) as [w1 |]; simpl.
  - split; [reflexivity |]. split; [reflexivity |].
    intros pre post c E Hc.
    destruct pre as [| p pre]; simpl in E.
    + injection E as E1 E2. subst c. discriminate Hc.
    + injection E as E1 E2. subst p.
      destruct pre as [| q pre]; simpl in E2.
      * injection E2 as E2 E3. subst c post.
        repeat split. now exists w1.
      * injection E2 as E2 E3. destruct pre; discriminate E3.
  - split; [reflexivity |]. split; [reflexivity |].
    intros pre post c E Hc.
    destruct pre as [| p pre]; simpl in E.
    + injection E as E1 E2. subst c. discriminate Hc.
    + injection E as E1 E2. destruct pre; discriminate E2.
Qed.

End LockedDump.


(** ** Why the side conditions *)

(** The temporaries of [CLEAR_SHADOW_PAIR] must differ: with one register
    for both, the zero is overwritten by the second index before the
    stores, and slot 2 of the sample frame gets the shadow 3. *)
Example CLEAR_SHADOW_PAIR_same_temporary :
  refShadow (CLEAR_SHADOW_PAIR r1 r2 r2 sample_pair_state) 2 = 3.
Proof. reflexivity. Qed.

(** The source of [SET_VREG] must not be the index register: the index is
    zeroed before the shadow store, which then clears slot 0 and leaves the
    shadow of slot 2 as it was. *)
Example SET_VREG_source_is_index :
  refShadow (SET_VREG r1 r1 sample_pair_state) 2 = objA.
Proof. reflexivity. Qed.

(** The pair must lie inside the file: an index of [2^30 - 2] makes the
    shadow address wrap around onto the value slot 2 of the sample frame,
    and [CLEAR_SHADOW_PAIR] clears that value. *)
Example CLEAR_SHADOW_PAIR_outside_file :
  let st := mov r1 (Imm (2 ^ 30 - 2)) sample_pair_state in
  values st 2 = objA /\ values (CLEAR_SHADOW_PAIR r1 r2 r3 st) 2 = 0.
Proof. split; reflexivity. Qed.

(** The operator on the sample collaborators: with the lock held the object
    is appended to the stream after the assertion; without it the assertion
    aborts and nothing is dumped. *)
Example operator_shl_sample :
  Dumpable.operator_shl _ _ _ _ (fun _ => tt) sample_AssertSharedHeld sample_Dump
    tt 42 (true, [7]) []
  = (Some (tt, (true, [7; 42])),
     [Dumpable.CallAssertSharedHeld _ _ _ tt; Dumpable.CallDump _ _ _ 42 tt]) /\
  Dumpable.operator_shl _ _ _ _ (fun _ => tt) sample_AssertSharedHeld sample_Dump
    tt 42 (false, [7]) []
  = (None, [Dumpable.CallAssertSharedHeld _ _ _ tt]).
Proof. split; reflexivity. Qed.


(** * Further properties of the header *)

(** ** The fetch macros compose *)

Lemma state_eq_refl st : state_eq st st.
Proof. now repeat split. Qed.

(** Case analysis of a register against the cursor and the instruction
    register. *)
Ltac fetch_regs r :=
  destruct (reg_eq_dec r rINST) as [-> | ?];
  [| destruct (reg_eq_dec r rPC) as [-> | ?]];
  regs_simpl.

(** X1: a prefetch followed by the manual advance its comment asks for is
    [FETCH_ADVANCE_INST]: [PREFETCH_INST count] then [ADVANCE count] leaves
    every register, the program counter and memory as
    [FETCH_ADVANCE_INST count] does. *)
Theorem PREFETCH_INST_then_ADVANCE (count : Z) (st : state) :
  state_eq ((PREFETCH_INST count ;; ADVANCE count) st) (FETCH_ADVANCE_INST count st).
Proof.
  unfold seq, PREFETCH_INST, ADVANCE, FETCH_ADVANCE_INST, ldrh, ldrh_wb, add,
    ea, eval_operand2.
  repeat split. intros r. fetch_regs r.
  - reflexivity.
  - now rewrite wrap32_idem.
  - reflexivity.
Qed.

(** X2: moving the cursor without reading and fetching afterwards is
    [FETCH_ADVANCE_INST]: [ADVANCE count] then [FETCH_INST] leaves every
    register, the program counter and memory as [FETCH_ADVANCE_INST count]
    does. *)
Theorem ADVANCE_then_FETCH_INST (count : Z) (st : state) :
  state_eq ((ADVANCE count ;; FETCH_INST) st) (FETCH_ADVANCE_INST count st).
Proof.
  unfold seq, ADVANCE, FETCH_INST, FETCH_ADVANCE_INST, ldrh, ldrh_wb, add,
    ea, eval_operand2.
  repeat split. intros r. fetch_regs r.
  - cbn [mem set_reg]. now rewrite Z.add_0_r, wrap32_idem.
  - now rewrite wrap32_idem.
  - reflexivity.
Qed.

Lemma wrap32_units x a b : wrap32 (wrap32 (x + a * 2) + b * 2) = wrap32 (x + (a + b) * 2).
Proof. rewrite wrap32_add_l. f_equal. lia. Qed.

(** X3: advances add up.  Two [FETCH_ADVANCE_INST] in a row are one over
    the sum of the counts, and so are two [ADVANCE]; advancing by [count]
    and then by [- count] leaves the state as it was. *)
Theorem advances_add_up (a b : Z) (st : state) :
  state_eq ((FETCH_ADVANCE_INST a ;; FETCH_ADVANCE_INST b) st)
           (FETCH_ADVANCE_INST (a + b) st) /\
  state_eq ((ADVANCE a ;; ADVANCE b) st) (ADVANCE (a + b) st) /\
  state_eq ((ADVANCE a ;; ADVANCE (- a)) st) st.
Proof.
  unfold seq, ADVANCE, FETCH_ADVANCE_INST, ldrh_wb, add, ea, eval_operand2.
  split; [| split]; repeat split; intros r.
  - fetch_regs r.
    + cbn [mem set_reg]. now rewrite wrap32_idem, wrap32_units.
    + now rewrite ?wrap32_idem, wrap32_units, ?wrap32_idem.
    + reflexivity.
  - destruct (reg_eq_dec r rPC) as [-> | ?]; regs_simpl.
    + apply wrap32_units.
    + reflexivity.
  - destruct (reg_eq_dec r rPC) as [-> | ?]; regs_simpl.
    + rewrite wrap32_units. replace ((a + - a) * 2) with 0 by lia.
      rewrite Z.add_0_r. apply wrap32_idem.
    + reflexivity.
Qed.

(** X4: [FETCH_ADVANCE_INST_RB] takes the distance in bytes: with the
    register holding twice the count, as a 32-bit word (so also for a
    negative count), it leaves every register, the program counter and
    memory as [FETCH_ADVANCE_INST count] does. *)
Theorem FETCH_ADVANCE_INST_RB_byte_offset (reg : reg) (count : Z) (st : state) :
  get_reg st reg = wrap32 (count * 2) ->
  state_eq (FETCH_ADVANCE_INST_RB reg st) (FETCH_ADVANCE_INST count st).
Proof.
  intros H.
  unfold FETCH_ADVANCE_INST_RB, FETCH_ADVANCE_INST, ldrh_wb, ea, eval_operand2.
  rewrite H, wrap32_add_r. now repeat split.
Qed.

Lemma FETCH_ADVANCE_INST_RB_byte_offset_witness :
  let st := mov r0 (Imm 0xFFFFFFFE) (ADVANCE 2 sample_state) in
  get_reg (FETCH_ADVANCE_INST_RB r0 st) rINST = 0x5678 /\
  state_eq (FETCH_ADVANCE_INST_RB r0 st) (FETCH_ADVANCE_INST (-1) st).
Proof.
  split.
  - reflexivity.
  - apply (FETCH_ADVANCE_INST_RB_byte_offset r0 (-1)
             (mov r0 (Imm 0xFFFFFFFE) (ADVANCE 2 sample_state))).
    reflexivity.
Defined.

(** ** Operand fetches *)

Lemma wrap32_load8 m a : wrap32 (load8 m a) = load8 m a.
Proof.
  apply wrap32_small. pose proof (load8_range m a).
  unfold modulus. change (2 ^ 32) with 4294967296. lia.
Qed.

Lemma wrap32_load16 m a : wrap32 (load16 m a) = load16 m a.
Proof.
  apply wrap32_small. pose proof (load16_range m a).
  unfold modulus. change (2 ^ 32) with 4294967296. lia.
Qed.

Lemma load16_wrap_add m a k : load16 m (wrap32 a + k) = load16 m (a + k).
Proof.
  rewrite !load16_sum.
  replace (wrap32 a + k + 1) with (wrap32 a + (k + 1)) by lia.
  replace (a + k + 1) with (a + (k + 1)) by lia.
  now rewrite !load8_wrap_add.
Qed.

Lemma FETCH_value reg count st :
  get_reg (FETCH reg count st) reg = load16 (mem st) (cursor st + count * 2).
Proof.
  unfold FETCH, ldrh, ea, eval_operand2, cursor. regs_simpl.
  now rewrite load16_wrap, wrap32_load16.
Qed.

Lemma FETCH_B_value reg count byte st :
  get_reg (FETCH_B reg count byte st) reg
  = byte_at st (cursor st + (count * 2 + byte)).
Proof.
  unfold FETCH_B, ldrb, ea, eval_operand2, cursor, byte_at. regs_simpl.
  now rewrite load8_wrap, wrap32_load8.
Qed.

(** X5: a code unit is little endian.  The halfword [FETCH] reads at
    [count] is the byte [FETCH_B] reads there with selector 0 plus 256 times
    the byte it reads with selector 1, both between 0 and 255; so [FETCH]
    never yields more than [0xFFFF]. *)
Theorem FETCH_is_two_FETCH_B (reg : reg) (count : Z) (st : state) :
  let lo := get_reg (FETCH_B reg count 0 st) reg in
  let hi := get_reg (FETCH_B reg count 1 st) reg in
  get_reg (FETCH reg count st) reg = lo + 256 * hi /\
  0 <= lo <= 255 /\ 0 <= hi <= 255 /\
  0 <= get_reg (FETCH reg count st) reg <= 0xFFFF.
Proof.
  cbv zeta. rewrite FETCH_value, !FETCH_B_value. unfold byte_at.
  rewrite load16_sum.
  replace (cursor st + (count * 2 + 0)) with (cursor st + count * 2) by lia.
  replace (cursor st + (count * 2 + 1)) with (cursor st + count * 2 + 1) by lia.
  pose proof (load8_range (mem st) (cursor st + count * 2)).
  pose proof (load8_range (mem st) (cursor st + count * 2 + 1)).
  lia.
Qed.

(** X6: [FETCH_S] is the sign extension of [FETCH].  Read as a signed
    32-bit number, the register [FETCH_S] loads is the halfword [FETCH]
    loads read as a signed 16-bit number, between -32768 and 32767; the low
    16 bits of the two registers are the same. *)
Theorem FETCH_S_sign_extends (reg : reg) (count : Z) (st : state) :
  let u := get_reg (FETCH reg count st) reg in
  let s := get_reg (FETCH_S reg count st) reg in
  signed32 s = signed16 u /\
  - 32768 <= signed32 s <= 32767 /\
  s mod 2 ^ 16 = u /\
  (u < 32768 -> s = u) /\
  (32768 <= u -> s = u + 0xFFFF0000).
Proof.
  cbv zeta. rewrite FETCH_value.
  unfold FETCH_S, ldrsh, ea, eval_operand2. regs_simpl.
  rewrite load16_wrap. fold (cursor st).
  pose proof (load16_range (mem st) (cursor st + count * 2)) as Hr.
  set (u := load16 (mem st) (cursor st + count * 2)) in *.
  unfold signed32. rewrite wrap32_idem.
  unfold signed16. rewrite (Z.mod_small u (2 ^ 16)) by (change (2 ^ 16) with 65536; lia).
  change (2 ^ 15) with 32768. change (2 ^ 16) with 65536.
  change (2 ^ 31) with 2147483648.
  destruct (Z.ltb_spec u 32768) as [Hlt | Hge].
  - rewrite (wrap32_small u) by (unfold modulus; change (2 ^ 32) with 4294967296; lia).
    replace (u <? 2147483648) with true by (symmetry; apply Z.ltb_lt; lia).
    rewrite (Z.mod_small u 65536) by lia. lia.
  - assert (E : wrap32 (u - 65536) = u + 4294901760) by wrap_lia.
    rewrite E.
    replace (u + 4294901760 <? 2147483648) with false
      by (symmetry; apply Z.ltb_ge; lia).
    unfold modulus. change (2 ^ 32) with 4294967296.
    repeat split; try lia.
    Z.div_mod_to_equations. lia.
Qed.

(** X7: the opcode of the fetched instruction is the byte at the cursor.
    After [FETCH_INST], [GET_INST_OPCODE] yields the byte [FETCH_B] reads at
    the cursor with selector 0, and the rest of the instruction word,
    [rINST >> 8], is the byte next to it. *)
Theorem opcode_is_first_byte (reg : reg) (st : state) :
  get_reg ((FETCH_INST ;; GET_INST_OPCODE reg) st) reg
  = get_reg (FETCH_B reg 0 0 st) reg /\
  get_reg ((FETCH_INST ;; GET_INST_OPCODE reg) st) reg = byte_at st (cursor st) /\
  Z.shiftr (get_reg (FETCH_INST st) rINST) 8 = byte_at st (cursor st + 1).
Proof.
  rewrite FETCH_B_value. replace (cursor st + (0 * 2 + 0)) with (cursor st) by lia.
  assert (Hw : get_reg (FETCH_INST st) rINST
               = byte_at st (cursor st) + byte_at st (cursor st + 1) * 256).
  { rewrite FETCH_INST_word. unfold code_unit, byte_at.
    rewrite load16_sum. now replace (cursor st + 2 * 0) with (cursor st) by lia. }
  pose proof (load8_range (mem st) (cursor st)) as H0.
  pose proof (load8_range (mem st) (cursor st + 1)) as H1.
  fold (byte_at st (cursor st)) in H0. fold (byte_at st (cursor st + 1)) in H1.
  assert (Ho : get_reg ((FETCH_INST ;; GET_INST_OPCODE reg) st) reg
               = byte_at st (cursor st)).
  { unfold seq, GET_INST_OPCODE, and_, eval_operand2. regs_simpl.
    rewrite Hw.
    assert (E : Z.land (byte_at st (cursor st) + byte_at st (cursor st + 1) * 256) 255
                = (byte_at st (cursor st) + byte_at st (cursor st + 1) * 256) mod 2 ^ 8)
      by (apply (Z.land_ones _ 8); lia).
    rewrite E. change (2 ^ 8) with 256.
    rewrite Z.mod_add by lia. rewrite (Z.mod_small _ 256) by lia.
    apply wrap32_small. unfold modulus. change (2 ^ 32) with 4294967296. lia. }
  repeat split; try assumption.
  rewrite Hw, Z.shiftr_div_pow2 by lia. change (2 ^ 8) with 256.
  rewrite Z.div_add by lia. rewrite Z.div_small by lia. lia.
Qed.

(** X8: operands are fetched relative to the cursor: a [FETCH] of unit
    [count] after [ADVANCE n] reads what a [FETCH] of unit [n + count] reads
    before it, and [FETCH] of unit 0 reads what [FETCH_INST] reads. *)
Theorem FETCH_after_ADVANCE (reg : reg) (n count : Z) (st : state) :
  get_reg ((ADVANCE n ;; FETCH reg count) st) reg
  = get_reg (FETCH reg (n + count) st) reg /\
  get_reg (FETCH reg 0 st) reg = get_reg (FETCH_INST st) rINST.
Proof.
  split.
  - unfold seq. rewrite !FETCH_value.
    unfold ADVANCE, add, cursor, eval_operand2. cbn [mem set_reg]. regs_simpl.
    rewrite load16_wrap_add.
    now replace (get_reg st rPC + n * 2 + count * 2)
      with (get_reg st rPC + (n + count) * 2) by lia.
  - rewrite FETCH_value, FETCH_INST_word. unfold code_unit.
    now replace (cursor st + 0 * 2) with (cursor st + 2 * 0) by lia.
Qed.

(** ** Dispatch through the fetch macros *)

Lemma land_255_load16 m a : Z.land (load16 m a) 255 = load8 m a.
Proof.
  assert (E : Z.land (load16 m a) 255 = load16 m a mod 2 ^ 8)
    by (apply (Z.land_ones _ 8); lia).
  rewrite E, load16_sum. change (2 ^ 8) with 256.
  rewrite Z.mod_add by lia. apply Z.mod_small, load8_range.
Qed.

Lemma PREFETCH_INST_ADVANCE_regs count st r :
  get_reg ((PREFETCH_INST count ;; ADVANCE count) st) r
  = get_reg (FETCH_ADVANCE_INST count st) r.
Proof.
  unfold seq, PREFETCH_INST, ADVANCE, FETCH_ADVANCE_INST, ldrh, ldrh_wb, add,
    ea, eval_operand2.
  fetch_regs r.
  - reflexivity.
  - now rewrite wrap32_idem.
  - reflexivity.
Qed.

(** X9: sequential dispatch.  With a word-aligned table of handlers of at
    least 4 bytes at rIBASE, [FETCH_ADVANCE_INST count] followed by
    [GET_INST_OPCODE] and [GOTO_OPCODE] jumps, in ARM state, to the handler
    of the byte that lies [count] code units past the cursor, and leaves the
    cursor on that unit; prefetching, advancing by hand and then dispatching
    jumps to the same handler. *)
Theorem sequential_dispatch (K : asm_support) (reg : reg) (count : Z) (st : state) :
  reg <> rIBASE -> reg <> rPC ->
  2 <= handler_size_bits K ->
  get_reg st rIBASE mod 4 = 0 ->
  get_reg st rIBASE + 256 * 2 ^ handler_size_bits K <= modulus ->
  let opcode := byte_at st (cursor st + count * 2) in
  let st1 := (FETCH_ADVANCE_INST count ;; dispatch K reg) st in
  let st2 := (PREFETCH_INST count ;; ADVANCE count ;; dispatch K reg) st in
  get_pc st1 = handler_entry K (get_reg st rIBASE) opcode /\
  cursor st1 = wrap32 (cursor st + count * 2) /\
  get_pc st2 = get_pc st1 /\
  cursor st2 = cursor st1 /\
  iset st1 = Some InstrSet_ARM /\
  iset st2 = Some InstrSet_ARM.
Proof.
  intros Hreg HPC Hbits Hal Hfit opcode st1 st2.
  assert (Hbase : forall s, get_reg (FETCH_ADVANCE_INST count s) rIBASE = get_reg s rIBASE).
  { intros s. unfold FETCH_ADVANCE_INST, ldrh_wb. now regs_simpl. }
  assert (Hcur : forall s, cursor (dispatch K reg s) = cursor s).
  { intros s. unfold cursor, dispatch, seq, GET_INST_OPCODE, GOTO_OPCODE, and_, add_pc.
    now regs_simpl. }
  assert (Hop : Z.land (get_reg (FETCH_ADVANCE_INST count st) rINST) 255 = opcode).
  { rewrite FETCH_ADVANCE_INST_word. unfold code_unit, opcode, byte_at.
    rewrite land_255_load16. now rewrite (Z.mul_comm 2 count). }
  destruct (dispatch_entry K reg (FETCH_ADVANCE_INST count st)) as [H1 I1];
    rewrite ?Hbase; try assumption.
  destruct (dispatch_entry K reg ((PREFETCH_INST count ;; ADVANCE count) st)) as [H2 I2];
    rewrite ?PREFETCH_INST_ADVANCE_regs, ?Hbase; try assumption.
  rewrite Hbase, Hop in H1.
  rewrite !PREFETCH_INST_ADVANCE_regs, Hbase, Hop in H2.
  repeat split.
  - exact H1.
  - subst st1. unfold seq. rewrite Hcur. apply FETCH_ADVANCE_INST_cursor.
  - exact (eq_trans H2 (eq_sym H1)).
  - change (cursor (dispatch K reg ((PREFETCH_INST count ;; ADVANCE count) st))
            = cursor (dispatch K reg (FETCH_ADVANCE_INST count st))).
    rewrite !Hcur. unfold cursor. apply PREFETCH_INST_ADVANCE_regs.
  - exact I1.
  - exact I2.
Qed.

Lemma sequential_dispatch_witness :
  let K := sample_support in
  let st := sample_state in
  let opcode := byte_at st (cursor st + 1 * 2) in
  let st1 := (FETCH_ADVANCE_INST 1 ;; dispatch K r12) st in
  let st2 := (PREFETCH_INST 1 ;; ADVANCE 1 ;; dispatch K r12) st in
  (opcode = 0x78 /\ get_pc st1 = 0x8000 + 0x78 * 128) /\
  get_pc st1 = handler_entry K (get_reg st rIBASE) opcode /\
  cursor st1 = wrap32 (cursor st + 1 * 2) /\
  get_pc st2 = get_pc st1 /\
  cursor st2 = cursor st1 /\
  iset st1 = Some InstrSet_ARM /\
  iset st2 = Some InstrSet_ARM.
Proof.
  split.
  - split; reflexivity.
  - apply (sequential_dispatch sample_support r12 1 sample_state).
    + discriminate.
    + discriminate.
    + vm_compute. discriminate.
    + reflexivity.
    + vm_compute. discriminate.
Defined.

Lemma add_pc_set_mem rn o m st :
  add_pc rn o (set_mem m st) = set_mem m (add_pc rn o st).
Proof.
  unfold add_pc.
  replace (eval_operand2 (set_mem m st) o) with (eval_operand2 st o)
    by (destruct o; reflexivity).
  rewrite get_reg_set_mem. unfold BXWritePC.
  destruct (Z.testbit _ 0); [reflexivity |].
  now destruct (Z.testbit _ 1).
Qed.

Lemma dispatch_set_mem K reg m st :
  dispatch K reg (set_mem m st) = set_mem m (dispatch K reg st).
Proof.
  unfold dispatch, seq, GOTO_OPCODE.
  change (GET_INST_OPCODE reg (set_mem m st)) with (set_mem m (GET_INST_OPCODE reg st)).
  apply add_pc_set_mem.
Qed.

(** X10: the handler table is switched at [REFRESH_IBASE] and nowhere
    else.  Dispatch does not look at memory, so a change of the thread's
    table field alone does not move its target; after [REFRESH_IBASE],
    which changes rIBASE only, dispatch jumps, in ARM state, into the table
    whose address is in the thread's field at [THREAD_CURRENT_IBASE_OFFSET],
    a word-aligned table of handlers of at least 4 bytes. *)
Theorem REFRESH_IBASE_switches_table (K : asm_support) (reg : reg) (st : state) :
  reg <> rIBASE ->
  2 <= handler_size_bits K ->
  let table := load32 (mem st) (get_reg st rSELF + THREAD_CURRENT_IBASE_OFFSET K) in
  table mod 4 = 0 ->
  table + 256 * 2 ^ handler_size_bits K <= modulus ->
  get_pc ((REFRESH_IBASE K ;; dispatch K reg) st)
  = handler_entry K table (Z.land (get_reg st rINST) 255) /\
  iset ((REFRESH_IBASE K ;; dispatch K reg) st) = Some InstrSet_ARM /\
  (forall r, r <> rIBASE -> get_reg (REFRESH_IBASE K st) r = get_reg st r) /\
  (forall x, mem (REFRESH_IBASE K st) x = mem st x) /\
  (forall m, get_pc (dispatch K reg (set_mem m st)) = get_pc (dispatch K reg st)) /\
  (forall m, iset (dispatch K reg (set_mem m st)) = iset (dispatch K reg st)).
Proof.
  intros Hreg Hbits table Hal Hfit.
  assert (Hb : get_reg (REFRESH_IBASE K st) rIBASE = table).
  { unfold REFRESH_IBASE, ldr, ea, eval_operand2. regs_simpl.
    rewrite load32_wrap. apply wrap32_small, load32_range. }
  assert (Hr : forall r, r <> rIBASE -> get_reg (REFRESH_IBASE K st) r = get_reg st r).
  { intros r Hne. unfold REFRESH_IBASE, ldr. now regs_simpl. }
  destruct (dispatch_entry K reg (REFRESH_IBASE K st)) as [Hpc Hset];
    rewrite ?Hb; try assumption.
  rewrite Hb, (Hr rINST) in Hpc by discriminate.
  split; [exact Hpc |]. split; [exact Hset |]. split; [exact Hr |].
  split; [reflexivity |].
  split; intros m; now rewrite dispatch_set_mem.
Qed.

Lemma REFRESH_IBASE_switches_table_witness :
  let K := sample_support in
  let st := mov rINST (Imm 0x12FF)
              (str r0 rSELF (Imm 128) (mov r0 (Imm 0x10000) sample_state)) in
  let table := load32 (mem st) (get_reg st rSELF + THREAD_CURRENT_IBASE_OFFSET K) in
  (get_pc (dispatch K r12 st) = 0x8000 + 0xFF * 128 /\
   get_pc ((REFRESH_IBASE K ;; dispatch K r12) st) = 0x10000 + 0xFF * 128) /\
  get_pc ((REFRESH_IBASE K ;; dispatch K r12) st)
  = handler_entry K table (Z.land (get_reg st rINST) 255) /\
  iset ((REFRESH_IBASE K ;; dispatch K r12) st) = Some InstrSet_ARM /\
  (forall r, r <> rIBASE -> get_reg (REFRESH_IBASE K st) r = get_reg st r) /\
  (forall x, mem (REFRESH_IBASE K st) x = mem st x) /\
  (forall m, get_pc (dispatch K r12 (set_mem m st)) = get_pc (dispatch K r12 st)) /\
  (forall m, iset (dispatch K r12 (set_mem m st)) = iset (dispatch K r12 st)).
Proof.
  split.
  - split; reflexivity.
  - apply (REFRESH_IBASE_switches_table sample_support r12
             (mov rINST (Imm 0x12FF)
                (str r0 rSELF (Imm 128) (mov r0 (Imm 0x10000) sample_state)))).
    + discriminate.
    + vm_compute. discriminate.
    + reflexivity.
    + vm_compute. discriminate.
Defined.

(** X11: the parameterized prefetch dispatches without touching the fetch
    state.  With two distinct registers [dreg] and [sreg] and a word-aligned
    table of handlers of at least 4 bytes at [base],
    [PREFETCH_ADVANCE_INST dreg, sreg, count], then
    [GET_PREFETCHED_OPCODE oreg, dreg] and [GOTO_OPCODE_BASE base, oreg] jump,
    in ARM state, to the handler of the byte [count] code units past the
    address in [sreg]; rPC and rINST, when they are none of the three operand
    registers, keep their values, and memory is unchanged. *)
Theorem prefetched_dispatch
  (K : asm_support) (dreg sreg oreg base : reg) (count : Z) (st : state) :
  dreg <> sreg ->
  base <> dreg -> base <> sreg -> base <> oreg ->
  2 <= handler_size_bits K ->
  get_reg st base mod 4 = 0 ->
  get_reg st base + 256 * 2 ^ handler_size_bits K <= modulus ->
  let st' := (PREFETCH_ADVANCE_INST dreg sreg count ;;
              GET_PREFETCHED_OPCODE oreg dreg ;;
              GOTO_OPCODE_BASE K base oreg) st in
  get_pc st' = handler_entry K (get_reg st base)
                 (byte_at st (get_reg st sreg + count * 2)) /\
  iset st' = Some InstrSet_ARM /\
  (forall r, r <> dreg -> r <> sreg -> r <> oreg -> get_reg st' r = get_reg st r) /\
  (forall x, mem st' x = mem st x).
Proof.
  intros Hds Hd Hs Ho Hbits Hal Hfit st'. subst st'. unfold seq.
  set (st1 := PREFETCH_ADVANCE_INST dreg sreg count st).
  set (st2 := GET_PREFETCHED_OPCODE oreg dreg st1).
  assert (Hw : get_reg st1 dreg = load16 (mem st) (get_reg st sreg + count * 2)).
  { unfold st1, PREFETCH_ADVANCE_INST, ldrh_wb, ea, eval_operand2. regs_simpl.
    now rewrite load16_wrap, wrap32_load16. }
  assert (Hop : get_reg st2 oreg = byte_at st (get_reg st sreg + count * 2)).
  { unfold st2, GET_PREFETCHED_OPCODE, and_, eval_operand2. regs_simpl.
    rewrite Hw, land_255_load16. apply wrap32_load8. }
  assert (Hbase : get_reg st2 base = get_reg st base).
  { unfold st2, st1, GET_PREFETCHED_OPCODE, PREFETCH_ADVANCE_INST, and_, ldrh_wb.
    now regs_simpl. }
  assert (Hrange : 0 <= byte_at st (get_reg st sreg + count * 2) <= 255).
  { pose proof (load8_range (mem st) (get_reg st sreg + count * 2)).
    unfold byte_at. lia. }
  destruct (GOTO_OPCODE_BASE_pc K base oreg st2) as [Hpc Hset];
    rewrite ?Hbase, ?Hop; try assumption.
  rewrite Hbase, Hop in Hpc.
  split; [exact Hpc |]. split; [exact Hset |]. split.
  - intros r H1 H2 H3.
    unfold GOTO_OPCODE_BASE, add_pc, st2, st1, GET_PREFETCHED_OPCODE,
      PREFETCH_ADVANCE_INST, and_, ldrh_wb.
    now regs_simpl.
  - intros x. unfold GOTO_OPCODE_BASE, add_pc. now rewrite mem_BXWritePC.
Qed.

Lemma prefetched_dispatch_witness :
  let K := sample_support in
  let st := sample_state in
  let st' := (PREFETCH_ADVANCE_INST r2 r3 2 ;;
              GET_PREFETCHED_OPCODE r12 r2 ;;
              GOTO_OPCODE_BASE K rIBASE r12) (mov r3 (Reg rPC) st) in
  get_pc st' = 0x8000 + 0xBC * 128 /\
  get_pc st' = handler_entry K (get_reg (mov r3 (Reg rPC) st) rIBASE)
                 (byte_at (mov r3 (Reg rPC) st)
                    (get_reg (mov r3 (Reg rPC) st) r3 + 2 * 2)) /\
  iset st' = Some InstrSet_ARM /\
  (forall r, r <> r2 -> r <> r3 -> r <> r12 ->
     get_reg st' r = get_reg (mov r3 (Reg rPC) st) r) /\
  (forall x, mem st' x = mem (mov r3 (Reg rPC) st) x).
Proof.
  split.
  - reflexivity.
  - apply (prefetched_dispatch sample_support r2 r3 r12 rIBASE 2
             (mov r3 (Reg rPC) sample_state)).
    + discriminate.
    + discriminate.
    + discriminate.
    + discriminate.
    + vm_compute. discriminate.
    + reflexivity.
    + vm_compute. discriminate.
Defined.

(** The alignment is needed: with the table at the odd address [0x8001] the
    interworking write clears bit 0 and leaves the core in Thumb state, and
    with bits 1:0 of the target equal to 10 the branch is UNPREDICTABLE. *)
Example dispatch_unaligned_table :
  let odd := mov rIBASE (Imm 0x8001) (mov rINST (Imm 0x1203) sample_state) in
  let half := mov rIBASE (Imm 0x8002) (mov rINST (Imm 0x1203) sample_state) in
  get_pc (dispatch sample_support r12 odd) = 0x8180 /\
  iset (dispatch sample_support r12 odd) = Some InstrSet_Thumb /\
  iset (dispatch sample_support r12 half) = None.
Proof. repeat split. Qed.

(** ** Addresses and round trips of the register file *)

Lemma vreg_addr_next st i : wrap32 (vreg_addr st i + 4) = vreg_addr st (i + 1).
Proof.
  unfold vreg_addr. rewrite !shiftl2.
  pose proof (get_reg_range st rFP). wrap_lia.
Qed.

(** X12: [VREG_INDEX_TO_ADDR] yields the address [GET_VREG] reads.  A load
    through the register it sets returns what [GET_VREG] returns for the
    same index register, and the word 4 bytes further is the next slot, the
    other half of a wide pair; for a slot inside a register file the address
    is [rFP + 4 * i], with no wrap-around. *)
Theorem VREG_INDEX_TO_ADDR_is_slot_address (reg vreg dst : reg) (st : state) :
  let i := get_reg st vreg in
  let st' := VREG_INDEX_TO_ADDR reg vreg st in
  get_reg st' reg = vreg_addr st i /\
  get_reg (ldr dst reg (Imm 0) st') dst = get_reg (GET_VREG dst vreg st) dst /\
  get_reg (ldr dst reg (Imm 4) st') dst = values st (i + 1) /\
  (forall n, register_file n st = true -> i < n ->
     get_reg st' reg = get_reg st rFP + 4 * i).
Proof.
  intros i st'.
  assert (Ha : get_reg st' reg = vreg_addr st i).
  { unfold st', VREG_INDEX_TO_ADDR, add, eval_operand2, vreg_addr, i. regs_simpl.
    rewrite (wrap32_small (get_reg st vreg)) by apply get_reg_range.
    reflexivity. }
  assert (Hm : mem st' = mem st) by reflexivity.
  repeat split.
  - exact Ha.
  - rewrite GET_VREG_value. unfold ldr, ea, eval_operand2. regs_simpl.
    rewrite Ha, Hm, Z.add_0_r, load32_wrap. fold i.
    apply wrap32_small, load32_range.
  - unfold ldr, ea, eval_operand2. regs_simpl.
    rewrite Ha, Hm, vreg_addr_next.
    apply wrap32_small, load32_range.
  - intros n Hrf Hi. rewrite Ha. apply (vreg_addr_in_file n st Hrf).
    pose proof (get_reg_range st vreg). fold i in H. lia.
Qed.

(** X13: a value written to a slot is read back.  Where the value word and
    the shadow word of the slot do not overlap, [GET_VREG] after
    [SET_VREG_OBJECT] returns the source register's value, and so does
    [GET_VREG] after [SET_VREG] when the source register is not the index
    register, rFP or rREFS. *)
Theorem GET_VREG_after_write (reg vreg tmpreg dst : reg) (st : state) :
  let i := get_reg st vreg in
  apart (vreg_addr st i) (shadow_addr st i) = true ->
  get_reg ((SET_VREG_OBJECT reg vreg tmpreg ;; GET_VREG dst vreg) st) dst
  = get_reg st reg /\
  (reg <> vreg -> reg <> rFP -> reg <> rREFS ->
   get_reg ((SET_VREG reg vreg ;; GET_VREG dst vreg) st) dst = get_reg st reg).
Proof.
  intros i Hap. apply apart_sym in Hap. unfold seq. split.
  - rewrite GET_VREG_value, !SET_VREG_OBJECT_regs. fold i.
    unfold values. rewrite (vreg_addr_regs st) by apply SET_VREG_OBJECT_regs.
    rewrite SET_VREG_OBJECT_mem. fold i.
    rewrite load32_store32_apart by assumption.
    rewrite load32_store32_same. apply wrap32_small, get_reg_range.
  - intros Hv HF HR.
    rewrite GET_VREG_value, (SET_VREG_regs reg vreg st vreg) by congruence. fold i.
    unfold values. rewrite (vreg_addr_regs st) by (apply SET_VREG_regs; congruence).
    rewrite SET_VREG_mem by assumption. fold i.
    rewrite load32_store32_apart by assumption.
    rewrite load32_store32_same. apply wrap32_small, get_reg_range.
Qed.

Lemma GET_VREG_after_write_witness :
  let st := mov r0 (Imm objA) (mov r1 (Imm 3) sample_state) in
  get_reg ((SET_VREG_OBJECT r0 r1 r2 ;; GET_VREG r3 r1) st) r3 = get_reg st r0 /\
  (r0 <> r1 -> r0 <> rFP -> r0 <> rREFS ->
   get_reg ((SET_VREG r0 r1 ;; GET_VREG r3 r1) st) r3 = get_reg st r0).
Proof.
  apply (GET_VREG_after_write r0 r1 r2 r3
           (mov r0 (Imm objA) (mov r1 (Imm 3) sample_state))).
  reflexivity.
Defined.

(** The side condition is needed: with the shadow array on top of the value
    array, the shadow store of [SET_VREG] wipes the value just written. *)
Example GET_VREG_after_write_overlap :
  let st := mov rREFS (Reg rFP) (mov r0 (Imm 5) (mov r1 (Imm 3) sample_state)) in
  get_reg ((SET_VREG r0 r1 ;; GET_VREG r3 r1) st) r3 = 0.
Proof. reflexivity. Qed.

(** ** Values and consistency over sequences of calls *)

Lemma value_of_write_of c i (x : Z) :
  match write_of c i with
  | Some (WPrimitive v) => v
  | Some (WReference ref) => ref
  | _ => x
  end
  = match value_of c i with Some v => v | None => x end.
Proof.
  destruct c as [reg vreg j v | reg vreg tmpreg j ref | vreg tmp1 tmp2 j]; simpl.
  - now destruct (j =? i).
  - now destruct (j =? i).
  - now destruct ((j =? i) || (j + 1 =? i)).
Qed.

Lemma run_calls_values n cs : forall st i,
  register_file n st = true ->
  forallb (call_ok n) cs = true ->
  0 <= i < n ->
  values (run_calls cs st) i
  = match last_value cs i with
    | Some v => v
    | None => values st i
    end.
Proof.
  induction cs as [| c cs IH]; intros st i Hrf Hok Hi; simpl.
  - reflexivity.
  - simpl in Hok. apply andb_true_iff in Hok. destruct Hok as [Hc Hcs].
    rewrite IH by (try assumption; now apply run_call_file).
    destruct (last_value cs i) as [v |]; [reflexivity |].
    destruct (run_call_slots n st c Hrf Hc i Hi) as [_ ->].
    apply value_of_write_of.
Qed.

Lemma last_write_None_value cs i : last_write cs i = None -> last_value cs i = None.
Proof.
  induction cs as [| c cs IH]; simpl; [reflexivity |].
  destruct (last_write cs i) as [w |]; [discriminate |].
  rewrite IH by reflexivity.
  destruct c as [reg vreg j v | reg vreg tmpreg j ref | vreg tmp1 tmp2 j]; simpl.
  - now destruct (j =? i).
  - now destruct (j =? i).
  - reflexivity.
Qed.

Lemma last_write_reference_value cs i ref :
  last_write cs i = Some (WReference ref) -> last_value cs i = Some ref.
Proof.
  induction cs as [| c cs IH]; simpl; [discriminate |].
  destruct (last_write cs i) as [w |] eqn:E.
  - intros H. injection H as ->. now rewrite IH.
  - rewrite (last_write_None_value cs i E).
    destruct c as [reg vreg j v | reg vreg tmpreg j r | vreg tmp1 tmp2 j]; simpl.
    + now destruct (j =? i).
    + destruct (j =? i); [| discriminate]. intros H. now injection H as ->.
    + now destruct ((j =? i) || (j + 1 =? i)).
Qed.

(** X14: the value in a slot after a sequence of calls is the one stored by
    the most recent [setPrimitive] or [setReference] on that slot; a
    [clearShadowPair] never changes a value, and a slot on which no such
    call was made keeps its value. *)
Theorem values_track_last_store (n : Z) (st : state) (cs : list rf_call) (i : Z) :
  register_file n st = true ->
  forallb (call_ok n) cs = true ->
  0 <= i < n ->
  values (run_calls cs st) i
  = match last_value cs i with
    | Some v => v
    | None => values st i
    end /\
  (forall vreg tmp1 tmp2 j, call_ok n (clearShadowPair vreg tmp1 tmp2 j) = true ->
     values (run_call (clearShadowPair vreg tmp1 tmp2 j) st) i = values st i).
Proof.
  intros Hrf Hok Hi. split.
  - now apply (run_calls_values n).
  - intros vreg tmp1 tmp2 j Hc.
    destruct (run_call_slots n st _ Hrf Hc i Hi) as [_ Ev].
    rewrite Ev. simpl. now destruct ((j =? i) || (j + 1 =? i)).
Qed.

Lemma values_track_last_store_witness :
  let cs := [setReference r0 r1 r2 2 objA; setPrimitive r0 r1 1 5;
             clearShadowPair r1 r2 r3 1] in
  let st := sample_state in
  (values (run_calls cs st) 2 = objA /\ refShadow (run_calls cs st) 2 = 0) /\
  values (run_calls cs st) 2
  = match last_value cs 2 with
    | Some v => v
    | None => values st 2
    end /\
  (forall vreg tmp1 tmp2 j, call_ok 4 (clearShadowPair vreg tmp1 tmp2 j) = true ->
     values (run_call (clearShadowPair vreg tmp1 tmp2 j) st) 2 = values st 2).
Proof.
  split.
  - split; reflexivity.
  - apply (values_track_last_store 4 sample_state
             [setReference r0 r1 r2 2 objA; setPrimitive r0 r1 1 5;
              clearShadowPair r1 r2 r3 1] 2).
    + reflexivity.
    + reflexivity.
    + lia.
Defined.

Lemma shadow_consistent_spec st i :
  shadow_consistent st i = true <->
  refShadow st i = 0 \/ refShadow st i = values st i.
Proof.
  unfold shadow_consistent. rewrite orb_true_iff, !Z.eqb_eq. reflexivity.
Qed.

(** X15: the calls keep every slot consistent for the collector.  After any
    sequence of [setPrimitive], [setReference] and [clearShadowPair] calls
    on a register file, a slot that was consistent (shadow null, or equal to
    the value) is still consistent, and a slot that some call wrote is
    consistent whatever it held before: a non-null shadow is always the word
    in the value slot. *)
Theorem calls_keep_shadow_consistent
  (n : Z) (st : state) (cs : list rf_call) (i : Z) :
  register_file n st = true ->
  forallb (call_ok n) cs = true ->
  0 <= i < n ->
  (shadow_consistent st i = true -> shadow_consistent (run_calls cs st) i = true) /\
  (last_write cs i <> None -> shadow_consistent (run_calls cs st) i = true).
Proof.
  intros Hrf Hok Hi.
  pose proof (run_calls_shadow n cs st i Hrf Hok Hi) as Hs.
  pose proof (run_calls_values n cs st i Hrf Hok Hi) as Hv.
  assert (Hw : forall w, last_write cs i = Some w ->
                 shadow_consistent (run_calls cs st) i = true).
  { intros w E. apply shadow_consistent_spec. rewrite Hs, E.
    destruct w as [v | ref |]; simpl; auto.
    right. now rewrite Hv, (last_write_reference_value cs i ref E). }
  split.
  - intros Hc. destruct (last_write cs i) as [w |] eqn:E.
    + now apply (Hw w).
    + apply shadow_consistent_spec. apply shadow_consistent_spec in Hc.
      rewrite Hs, Hv, (last_write_None_value cs i E). exact Hc.
  - intros Hne. destruct (last_write cs i) as [w |] eqn:E.
    + now apply (Hw w).
    + congruence.
Qed.

Lemma calls_keep_shadow_consistent_witness :
  let cs := [setReference r0 r1 r2 2 objA; setPrimitive r0 r1 1 5;
             setReference r0 r1 r2 1 objA; clearShadowPair r1 r2 r3 2] in
  let st := sample_state in
  (shadow_consistent st 1 = true -> shadow_consistent (run_calls cs st) 1 = true) /\
  (last_write cs 1 <> None -> shadow_consistent (run_calls cs st) 1 = true).
Proof.
  apply (calls_keep_shadow_consistent 4 sample_state
           [setReference r0 r1 r2 2 objA; setPrimitive r0 r1 1 5;
            setReference r0 r1 r2 1 objA; clearShadowPair r1 r2 r3 2] 1).
  - reflexivity.
  - reflexivity.
  - lia.
Defined.

(** A bare [SET_VREG_SHADOW] is not such a call: it can leave a shadow that
    is neither null nor the value. *)
Example SET_VREG_SHADOW_breaks_consistency :
  let st := mov r0 (Imm objA) (mov r1 (Imm 0) sample_state) in
  shadow_consistent st 0 = true /\
  shadow_consistent (SET_VREG_SHADOW r0 r1 st) 0 = false.
Proof. split; reflexivity. Qed.

Lemma independent_spec c1 c2 i :
  independent c1 c2 = true -> write_of c1 i = None \/ write_of c2 i = None.
Proof.
  unfold independent.
  destruct c1 as [g1 v1 j1 x1 | g1 v1 t1 j1 x1 | v1 t1 u1 j1];
    destruct c2 as [g2 v2 j2 x2 | g2 v2 t2 j2 x2 | v2 t2 u2 j2];
    cbn [slots_of forallb existsb write_of]; intros H;
    repeat match goal with
      | |- context [?a =? ?b] => destruct (Z.eqb_spec a b)
      end;
    cbn [orb]; auto; exfalso;
    repeat match goal with
      | E : context [?a =? ?b] |- _ => destruct (Z.eqb_spec a b)
      end;
    cbn in H; try discriminate H; lia.
Qed.

(** X16: calls on different slots commute.  Two calls that write no slot in
    common leave the same value and the same shadow in every slot of the
    file, whichever is made first. *)
Theorem independent_calls_commute (n : Z) (st : state) (c1 c2 : rf_call) (i : Z) :
  register_file n st = true ->
  call_ok n c1 = true -> call_ok n c2 = true ->
  independent c1 c2 = true ->
  0 <= i < n ->
  values (run_calls [c1; c2] st) i = values (run_calls [c2; c1] st) i /\
  refShadow (run_calls [c1; c2] st) i = refShadow (run_calls [c2; c1] st) i.
Proof.
  intros Hrf H1 H2 Hind Hi.
  assert (Hok12 : forallb (call_ok n) [c1; c2] = true) by (simpl; now rewrite H1, H2).
  assert (Hok21 : forallb (call_ok n) [c2; c1] = true) by (simpl; now rewrite H1, H2).
  rewrite !(run_calls_values n), !(run_calls_shadow n) by assumption.
  cbn [last_value last_write].
  destruct (independent_spec c1 c2 i Hind) as [E | E].
  - pose proof (value_of_write_of c1 i 0) as V0. pose proof (value_of_write_of c1 i 1) as V1.
    rewrite E in *. destruct (value_of c1 i) as [v |]; [lia |].
    split.
    + now destruct (value_of c2 i).
    + now destruct (write_of c2 i).
  - pose proof (value_of_write_of c2 i 0) as V0. pose proof (value_of_write_of c2 i 1) as V1.
    rewrite E in *. destruct (value_of c2 i) as [v |]; [lia |].
    split.
    + now destruct (value_of c1 i).
    + now destruct (write_of c1 i).
Qed.

Lemma independent_calls_commute_witness :
  let c1 := setReference r0 r1 r2 0 objA in
  let c2 := clearShadowPair r1 r2 r3 1 in
  values (run_calls [c1; c2] sample_pair_state) 2
  = values (run_calls [c2; c1] sample_pair_state) 2 /\
  refShadow (run_calls [c1; c2] sample_pair_state) 2
  = refShadow (run_calls [c2; c1] sample_pair_state) 2.
Proof.
  apply (independent_calls_commute 4 sample_pair_state
           (setReference r0 r1 r2 0 objA) (clearShadowPair r1 r2 r3 1) 2).
  - reflexivity.
  - reflexivity.
  - reflexivity.
  - reflexivity.
  - lia.
Defined.

(** Calls on the same slot do not commute. *)
Example dependent_calls_do_not_commute :
  let c1 := setReference r0 r1 r2 2 objA in
  let c2 := setPrimitive r0 r1 2 5 in
  values (run_calls [c1; c2] sample_state) 2 = 5 /\
  values (run_calls [c2; c1] sample_state) 2 = objA.
Proof. split; reflexivity. Qed.

(** ** Exporting the dex pc *)

Lemma wrap32_sub_l a b : wrap32 (wrap32 a - b) = wrap32 (a - b).
Proof. unfold wrap32. now rewrite Zminus_mod_idemp_l. Qed.

(** X17: [EXPORT_DEX_PC] stores the index of the current code unit.  With
    the cursor on code unit [k] of the instructions of the frame's code
    item, the macro leaves [k] in the dex pc field and the cursor in the
    pointer field, so that the pointer is the instruction array plus twice
    the dex pc; only the temporary register changes. *)
Theorem EXPORT_DEX_PC_stores_unit_index
  (K : asm_support) (tmp : reg) (k : Z) (st : state) :
  tmp <> rPC -> tmp <> rFP ->
  apart (get_reg st rFP + OFF_FP_DEX_PC_PTR K) (get_reg st rFP + OFF_FP_DEX_PC K) = true ->
  0 <= k < 2 ^ 30 ->
  cursor st = wrap32 (codeItem K st + CODEITEM_INSNS_OFFSET K + 2 * k) ->
  let st' := EXPORT_DEX_PC K tmp st in
  exportedPC K st' = k /\
  exportedPCPointer K st' = cursor st /\
  wrap32 (codeItem K st + CODEITEM_INSNS_OFFSET K + 2 * exportedPC K st')
  = exportedPCPointer K st' /\
  (forall r, r <> tmp -> get_reg st' r = get_reg st r).
Proof.
  intros HPC HFP Hap Hk Hcur st'. subst st'.
  destruct (EXPORT_DEX_PC_fields K tmp st HPC HFP Hap) as [Hp Hd].
  assert (E : dex_pc_of_cursor K st = k).
  { unfold dex_pc_of_cursor. rewrite Hcur.
    unfold signed32. rewrite wrap32_sub_l.
    replace (codeItem K st + CODEITEM_INSNS_OFFSET K + 2 * k
             - (codeItem K st + CODEITEM_INSNS_OFFSET K)) with (2 * k) by lia.
    change (2 ^ 30) with 1073741824 in Hk. change (2 ^ 31) with 2147483648.
    rewrite (wrap32_small (2 * k))
      by (unfold modulus; change (2 ^ 32) with 4294967296; lia).
    replace (2 * k <? 2147483648) with true by (symmetry; apply Z.ltb_lt; lia).
    rewrite Z.shiftr_div_pow2 by lia. change (2 ^ 1) with 2.
    replace (2 * k / 2) with k by (rewrite Z.mul_comm, Z.div_mul; lia).
    apply wrap32_small. unfold modulus. change (2 ^ 32) with 4294967296. lia. }
  repeat split.
  - now rewrite Hd.
  - exact Hp.
  - now rewrite Hd, Hp, E.
  - intros r Hr. now apply EXPORT_DEX_PC_regs.
Qed.

Lemma EXPORT_DEX_PC_stores_unit_index_witness :
  let K := sample_support in
  let st := ADVANCE 2 sample_state in
  let st' := EXPORT_DEX_PC K r0 st in
  exportedPC K st' = 2 /\
  exportedPCPointer K st' = cursor st /\
  wrap32 (codeItem K st + CODEITEM_INSNS_OFFSET K + 2 * exportedPC K st')
  = exportedPCPointer K st' /\
  (forall r, r <> r0 -> get_reg st' r = get_reg st r).
Proof.
  apply (EXPORT_DEX_PC_stores_unit_index sample_support r0 2 (ADVANCE 2 sample_state)).
  - discriminate.
  - discriminate.
  - reflexivity.
  - split; [lia | reflexivity].
  - reflexivity.
Defined.

(** X18: exporting the pc does not touch the register file.  With the
    two export fields in the frame header below the vregs and the shadow
    array above them, [EXPORT_PC] and [EXPORT_DEX_PC] leave the value and
    the shadow of every slot of the file as they were. *)
Theorem exports_leave_register_file
  (K : asm_support) (n : Z) (tmp : reg) (st : state) (j : Z) :
  register_file n st = true ->
  0 <= j < n ->
  0 <= SHADOWFRAME_DEX_PC_PTR_OFFSET K ->
  SHADOWFRAME_DEX_PC_PTR_OFFSET K + 4 <= SHADOWFRAME_VREGS_OFFSET K ->
  0 <= SHADOWFRAME_DEX_PC_OFFSET K ->
  SHADOWFRAME_DEX_PC_OFFSET K + 4 <= SHADOWFRAME_VREGS_OFFSET K ->
  SHADOWFRAME_VREGS_OFFSET K <= get_reg st rFP ->
  get_reg st rFP <= get_reg st rREFS ->
  tmp <> rPC -> tmp <> rFP -> tmp <> rREFS ->
  (values (EXPORT_PC K st) j = values st j /\
   refShadow (EXPORT_PC K st) j = refShadow st j) /\
  (values (EXPORT_DEX_PC K tmp st) j = values st j /\
   refShadow (EXPORT_DEX_PC K tmp st) j = refShadow st j).
Proof.
  intros Hrf Hj Hp0 Hp1 Hd0 Hd1 Hhdr Hrefs HPC HFP HR.
  destruct (register_file_spec n st Hrf) as (Hn & Hv & Hs & Hdis).
  pose proof (get_reg_range st rFP) as HrF.
  pose proof (get_reg_range st rREFS) as HrR.
  pose proof (vreg_addr_in_file n st Hrf j Hj) as Eva.
  pose proof (shadow_addr_in_file n st Hrf j Hj) as Esa.
  assert (Ap : forall c, get_reg st rFP <= c -> c + 4 <= modulus ->
             apart (wrap32 (get_reg st rFP + OFF_FP_DEX_PC_PTR K)) c = true).
  { intros c Hc Hc4. rewrite apart_wrap_l. unfold OFF_FP_DEX_PC_PTR, OFF_FP.
    apply apart_lia; lia. }
  assert (Ad : forall c, get_reg st rFP <= c -> c + 4 <= modulus ->
             apart (wrap32 (get_reg st rFP + OFF_FP_DEX_PC K)) c = true).
  { intros c Hc Hc4. rewrite apart_wrap_l. unfold OFF_FP_DEX_PC, OFF_FP.
    apply apart_lia; lia. }
  split; split; unfold values, refShadow.
  - rewrite (vreg_addr_regs st) by apply EXPORT_PC_regs.
    rewrite EXPORT_PC_mem. apply load32_store32_apart, Ap; lia.
  - rewrite (shadow_addr_regs st) by apply EXPORT_PC_regs.
    rewrite EXPORT_PC_mem. apply load32_store32_apart, Ap; lia.
  - rewrite (vreg_addr_regs st) by (apply EXPORT_DEX_PC_regs; congruence).
    rewrite EXPORT_DEX_PC_mem by assumption.
    rewrite !load32_store32_apart; [reflexivity | apply Ap; lia | apply Ad; lia].
  - rewrite (shadow_addr_regs st) by (apply EXPORT_DEX_PC_regs; congruence).
    rewrite EXPORT_DEX_PC_mem by assumption.
    rewrite !load32_store32_apart; [reflexivity | apply Ap; lia | apply Ad; lia].
Qed.

Lemma exports_leave_register_file_witness :
  let K := sample_support in
  let st := sample_pair_state in
  (values st 2 = objA /\ refShadow st 2 = objA) /\
  (values (EXPORT_PC K st) 2 = values st 2 /\
   refShadow (EXPORT_PC K st) 2 = refShadow st 2) /\
  (values (EXPORT_DEX_PC K r0 st) 2 = values st 2 /\
   refShadow (EXPORT_DEX_PC K r0 st) 2 = refShadow st 2).
Proof.
  split.
  - split; reflexivity.
  - apply (exports_leave_register_file sample_support 4 r0 sample_pair_state 2);
      try reflexivity; try discriminate; try lia.
    all: vm_compute; discriminate.
Defined.

(** ** Chained locked dumps *)

Section LockedChain.

Import Dumpable DumpChain.

Variables World Thread ostream T : Type.
Variable Thread_Current : World -> Thread.
Variable AssertSharedHeld : Thread -> World -> option World.
Variable Dump : T -> ostream -> World -> option World.

Local Abbreviation run_chain :=
  (chain World Thread ostream T Thread_Current AssertSharedHeld Dump).
Local Abbreviation locked := (locked_dumps Thread ostream T).
Local Abbreviation dumps := (dumped Thread ostream T).

Lemma chain_step rhs rhss os w log :
  run_chain os (rhs :: rhss) w log =
  match AssertSharedHeld (Thread_Current w) w with
  | None => (None, log ++ [CallAssertSharedHeld Thread ostream T (Thread_Current w)])
  | Some w1 =>
      match Dump rhs os w1 with
      | None =>
          (None, (log ++ [CallAssertSharedHeld Thread ostream T (Thread_Current w)])
                 ++ [CallDump Thread ostream T rhs os])
      | Some w2 =>
          run_chain os rhss w2
            ((log ++ [CallAssertSharedHeld Thread ostream T (Thread_Current w)])
             ++ [CallDump Thread ostream T rhs os])
      end
  end.
Proof.
  cbn [chain]. unfold bind at 1.
  rewrite (operator_shl_unfold World Thread ostream T
             Thread_Current AssertSharedHeld Dump os rhs w log).
  destruct (AssertSharedHeld (Thread_Current w) w) as [w1 |]; [| reflexivity].
  now destruct (Dump rhs os w1).
Qed.

Lemma chain_log rhss : forall os w log,
  exists new,
    snd (run_chain os rhss w log) = log ++ new /\
    locked false new = true /\
    (exists rest, rhss = dumps new ++ rest) /\
    (forall os' w', fst (run_chain os rhss w log) = Some (os', w') ->
       os' = os /\ dumps new = rhss).
Proof.
  induction rhss as [| rhs rhss IH]; intros os w log.
  - exists []. simpl. rewrite app_nil_r. repeat split.
    + now exists [].
    + unfold ret in H. simpl in H. congruence.
  - rewrite (chain_step rhs rhss os w log).
    destruct (AssertSharedHeld (Thread_Current w) w) as [w1 |].
    + destruct (Dump rhs os w1) as [w2 |].
      * destruct (IH os w2 ((log ++ [CallAssertSharedHeld Thread ostream T (Thread_Current w)])
                              ++ [CallDump Thread ostream T rhs os]))
          as (new & Hlog & Hlk & (rest & Hrest) & Hret).
        exists (CallAssertSharedHeld Thread ostream T (Thread_Current w)
                :: CallDump Thread ostream T rhs os :: new).
        repeat split.
        -- rewrite Hlog, <- !app_assoc. reflexivity.
        -- simpl. exact Hlk.
        -- exists rest. simpl. now rewrite <- Hrest.
        -- now destruct (Hret os' w' H).
        -- simpl. f_equal. now destruct (Hret os' w' H).
      * exists [CallAssertSharedHeld Thread ostream T (Thread_Current w);
                CallDump Thread ostream T rhs os].
        simpl. repeat split; try discriminate.
        -- now rewrite <- app_assoc.
        -- now exists rhss.
    + exists [CallAssertSharedHeld Thread ostream T (Thread_Current w)].
      simpl. repeat split; try discriminate.
      now exists (rhs :: rhss).
Qed.


End LockedChain.

(** The chain on the sample collaborators: two objects are dumped, each
    after its own assertion. *)
Example chain_sample :
  DumpChain.chain _ _ _ _ (fun _ => tt) sample_AssertSharedHeld sample_Dump
    tt [42; 43] (true, [7]) []
  = (Some (tt, (true, [7; 42; 43])),
     [Dumpable.CallAssertSharedHeld _ _ _ tt; Dumpable.CallDump _ _ _ 42 tt;
      Dumpable.CallAssertSharedHeld _ _ _ tt; Dumpable.CallDump _ _ _ 43 tt]).
Proof. reflexivity. Qed.
